(** * xapi: session layer of a Webex device client

    A shallow embedding of the Go package [xapi] (path model, credential
    encoding, request/response correlation and notification dispatch)
    together with the properties of its specification. *)

From Stdlib Require Import ZArith NArith Ascii String List Lia Permutation Sorted.
From stdpp Require Import base option list gmap strings fin_maps.

(** ** Byte strings

    A Go [string] is a sequence of bytes; it is modelled by [string], whose
    characters are the bytes. *)

Definition byteN (b : ascii) : N := N_of_ascii b.

(** *** [unicode/utf8]: decoding of one rune

    [decodeRune s] is [utf8.DecodeRuneInString]: the rune at the head of [s]
    and its width in bytes.  Ill-formed input decodes to [RuneError] with
    width 1. *)

Definition RuneError : N := 0xFFFD%N.

Definition inRange (lo hi : N) (b : ascii) : bool :=
  ((lo <=? byteN b) && (byteN b <=? hi))%N.

Definition cont (b : ascii) : N := N.land (byteN b) 0x3F.

Definition decodeRune (s : string) : N * nat :=
  match s with
  | EmptyString => (RuneError, 0)
  | String b0 t =>
    let x := byteN b0 in
    if (x <? 0x80)%N then (x, 1)
    else if (x <? 0xC2)%N then (RuneError, 1)
    else if (x <? 0xE0)%N then
      match t with
      | String b1 _ =>
        if inRange 0x80 0xBF b1
        then (N.lor (N.shiftl (N.land x 0x1F) 6) (cont b1), 2)
        else (RuneError, 1)
      | _ => (RuneError, 1)
      end
    else if (x <? 0xF0)%N then
      let lo := if (x =? 0xE0)%N then 0xA0%N else 0x80%N in
      let hi := if (x =? 0xED)%N then 0x9F%N else 0xBF%N in
      match t with
      | String b1 (String b2 _) =>
        if inRange lo hi b1 && inRange 0x80 0xBF b2
        then (N.lor (N.shiftl (N.land x 0x0F) 12)
                (N.lor (N.shiftl (cont b1) 6) (cont b2)), 3)
        else (RuneError, 1)
      | _ => (RuneError, 1)
      end
    else if (x <? 0xF5)%N then
      let lo := if (x =? 0xF0)%N then 0x90%N else 0x80%N in
      let hi := if (x =? 0xF4)%N then 0x8F%N else 0xBF%N in
      match t with
      | String b1 (String b2 (String b3 _)) =>
        if inRange lo hi b1 && inRange 0x80 0xBF b2 && inRange 0x80 0xBF b3
        then (N.lor (N.shiftl (N.land x 0x07) 18)
                (N.lor (N.shiftl (cont b1) 12)
                   (N.lor (N.shiftl (cont b2) 6) (cont b3))), 4)
        else (RuneError, 1)
      | _ => (RuneError, 1)
      end
    else (RuneError, 1)
  end.

(** [unicode.IsSpace]: the Latin-1 spaces and the other code points of the
    White_Space property. *)
Definition IsSpace (r : N) : bool :=
  ((9 <=? r) && (r <=? 13) || (r =? 0x20) || (r =? 0x85) || (r =? 0xA0)
   || (r =? 0x1680) || (0x2000 <=? r) && (r <=? 0x200A)
   || (r =? 0x2028) || (r =? 0x2029) || (r =? 0x202F) || (r =? 0x205F)
   || (r =? 0x3000))%N.

(** *** [strings.Fields]

    The string is cut around each run of white space runes; no field is
    empty.  [k] counts the bytes of the current rune that are still to be
    read, [sp] tells whether that rune is a space, and [cur] is the field
    being read (empty when no field is open). *)

Definition closeField (cur : string) (rest : list string) : list string :=
  match cur with
  | EmptyString => rest
  | _ => cur :: rest
  end.

Fixpoint fieldsLoop (s : string) (k : nat) (sp : bool) (cur : string)
  : list string :=
  match s with
  | EmptyString => closeField cur []
  | String b s' =>
    match k with
    | S k' =>
      if sp then fieldsLoop s' k' sp cur
      else fieldsLoop s' k' sp (cur +:+ String b EmptyString)
    | O =>
      let '(r, w) := decodeRune s in
      if IsSpace r
      then closeField cur (fieldsLoop s' (Nat.pred w) true EmptyString)
      else fieldsLoop s' (Nat.pred w) false (cur +:+ String b EmptyString)
    end
  end.

Definition Fields (s : string) : list string := fieldsLoop s 0 false "".

(** ** The path model (file [path.go]) *)

(** [type Path string] *)
Definition Path : Type := string.

(** [toSubQuery]: the one-entry map [{"Query": strings.Fields(p)}]. *)
Definition toSubQuery (p : Path) : gmap string (list string) :=
  {[ "Query" := Fields p ]}.

(** [toGetParams]: the one-entry map [{"Path": strings.Fields(p)}]. *)
Definition toGetParams (p : Path) : gmap string (list string) :=
  {[ "Path" := Fields p ]}.

(** [fmt.Sprintf("%s.%s", result, x)] *)
Definition sprintf_dot (result x : string) : string :=
  result +:+ "." +:+ x.

(** [toJSONPath]: [result] starts as ["$."] and every field is appended
    through [sprintf_dot]. *)
Definition toJSONPath (p : Path) : string :=
  fold_left sprintf_dot (Fields p) "$.".

(** The well-known paths used below. *)
Definition Status : Path := "Status".
Definition StatusAudioVolumeLevel : Path := "Status Audio Volume".
Definition EventUserInterfacePromptResponse : Path :=
  "Event UserInterface Message Prompt Response".

(** *** Reading a dot path back

    [dotted segs] writes a dot before each segment; [splitDot] cuts a string
    at its dots; [jsonPathSegments] reads the segments that follow the
    ["$."] marker of a dot path, each of them after its dot. *)

Fixpoint dotted (segs : list string) : string :=
  match segs with
  | [] => ""
  | x :: xs => "." +:+ x +:+ dotted xs
  end.

Fixpoint splitDot (s : string) : list string :=
  match s with
  | EmptyString => [""]
  | String c s' =>
    if Ascii.eqb c "."
    then "" :: splitDot s'
    else match splitDot s' with
         | h :: t => String c h :: t
         | [] => [String c ""]
         end
  end.

Definition jsonPathSegments (q : string) : option (list string) :=
  match q with
  | String "$" (String "." rest) =>
    match splitDot rest with
    | [ "" ] => Some []
    | "" :: segs => Some segs
    | _ => None
    end
  | _ => None
  end.

Fixpoint dotFree (s : string) : bool :=
  match s with
  | EmptyString => true
  | String c s' => negb (Ascii.eqb c ".") && dotFree s'
  end.

(** A path is unambiguous as a dot path when none of its segments holds a
    dot of its own. *)
Definition validPath (p : Path) : Prop :=
  Forall (fun seg => dotFree seg = true) (Fields p).

(** ** Errors (file [error.go])

    The sentinel errors of the package, the structured [JSONRPCError], an
    error wrapped by [fmt.Errorf("<context>: %w", err)], and the errors that
    come out of the transport and codec libraries. *)

Inductive error : Type :=
| ErrInvalidCredentials
| ErrMissingChannel
| ErrMissingIDField
| ErrNotConnected
| ErrInvalidMsg
| ErrUnknownResponse
| ErrUnsupportedMsg
| ErrMissingData
| ErrMissingCallback
| JSONRPCError (Code : Z) (Data : string) (Message : string)
| Wrap (context : string) (err : error)
| LibError (text : string).

(** What a call comes to: a value, an error, or a run-time panic. *)
Inductive outcome (A : Type) : Type :=
| Ok (a : A)
| Err (e : error)
| Panic (reason : string).
Arguments Ok {A} a.
Arguments Err {A} e.
Arguments Panic {A} reason.

Definition nilDereference : string :=
  "invalid memory address or nil pointer dereference".

(** ** Credentials ([encCreds], file [client.go])

    *** [encoding/base64] *)

Record Encoding := { encode : string; padChar : option ascii }.

Definition encodeStd : string :=
  "ABCDEFGHIJKLMNOPQRSTUVWXYZabcdefghijklmnopqrstuvwxyz0123456789+/".
Definition encodeURL : string :=
  "ABCDEFGHIJKLMNOPQRSTUVWXYZabcdefghijklmnopqrstuvwxyz0123456789-_".

Definition StdEncoding : Encoding :=
  {| encode := encodeStd; padChar := Some "="%char |}.
Definition RawURLEncoding : Encoding :=
  {| encode := encodeURL; padChar := None |}.

(** [enc.encode[i]] *)
Definition encAt (enc : Encoding) (i : N) : ascii :=
  match String.get (N.to_nat i) (encode enc) with
  | Some c => c
  | None => Ascii.zero
  end.

(** [val>>shift & 0x3F] *)
Definition sextet (val shift : N) : N := N.land (N.shiftr val shift) 0x3F.

Definition padding (enc : Encoding) : string :=
  match padChar enc with
  | Some c => String c ""
  | None => ""
  end.

(** [enc.EncodeToString(src)]: three bytes give four characters; a last
    group of one or two bytes gives two or three characters and the
    padding, when the encoding has one. *)
Fixpoint EncodeToString (enc : Encoding) (src : string) : string :=
  match src with
  | EmptyString => ""
  | String b0 EmptyString =>
    let val := N.shiftl (byteN b0) 16 in
    String (encAt enc (sextet val 18)) (String (encAt enc (sextet val 12))
      (padding enc +:+ padding enc))
  | String b0 (String b1 EmptyString) =>
    let val := N.lor (N.shiftl (byteN b0) 16) (N.shiftl (byteN b1) 8) in
    String (encAt enc (sextet val 18)) (String (encAt enc (sextet val 12))
      (String (encAt enc (sextet val 6)) (padding enc)))
  | String b0 (String b1 (String b2 rest)) =>
    let val := N.lor (N.lor (N.shiftl (byteN b0) 16) (N.shiftl (byteN b1) 8))
                 (byteN b2) in
    String (encAt enc (sextet val 18)) (String (encAt enc (sextet val 12))
      (String (encAt enc (sextet val 6)) (String (encAt enc (sextet val 0))
        (EncodeToString enc rest))))
  end.

(** *** [strings.NewReplacer("+", "-", "/", "_", "=", "")]

    Every old string is one byte long, so the replacer works byte by
    byte. *)
Definition replaceByte (c : ascii) : string :=
  if Ascii.eqb c "+" then "-"
  else if Ascii.eqb c "/" then "_"
  else if Ascii.eqb c "=" then ""
  else String c "".

Fixpoint Replace (s : string) : string :=
  match s with
  | EmptyString => ""
  | String c s' => replaceByte c +:+ Replace s'
  end.

Definition credPrefix : string := "auth-".

Definition encCreds (user password : string) : outcome string :=
  if String.eqb user "" || String.eqb password ""
  then Err ErrInvalidCredentials
  else Ok (credPrefix +:+
           Replace (EncodeToString StdEncoding (user +:+ ":" +:+ password))).

(** The characters of a string. *)
Definition chars (s : string) : list ascii := list_ascii_of_string s.

(** ** The client (file [client.go]) *)

(** [type Command string] *)
Definition Command : Type := string.
Definition feedbackSusbscribe : Command := "xFeedback/Subscribe".
Definition feedbackUnsubscribe : Command := "xFeedback/Unsubscribe".
Definition getCommand : Command := "xGet".
Definition muteCommand : Command := "xCommand/Audio/Microphones/Mute".

(** The [float64] values that serve as sequence ids are whole numbers; such
    a value is written as the integer it holds.  [float64] holds every
    integer up to [2^53] exactly, and [2^53 + 1] is halfway between its
    neighbours [2^53] and [2^53 + 2], so that the sum [2^53 + 1.0] rounds to
    the even one, [2^53].  [float64_inc] is [x++] on the values the counter
    takes, the integers from [0] to [2^53]. *)
Definition float64 : Type := Z.
Definition maxExact : Z := 2 ^ 53.
Definition float64_inc (x : float64) : float64 :=
  if (x <? maxExact)%Z then (x + 1)%Z else x.

(** Function values and channels are known by their identity; a [nil]
    function is [None]. *)
Definition funcId : Type := nat.
Definition chan : Type := nat.
Definition rpcClient : Type := nat.

(** [type CallbackFunc func(data []interface{})] *)
Definition CallbackFunc : Type := option funcId.

(** [v != nil] *)
Definition notNil (v : CallbackFunc) : bool :=
  match v with
  | Some _ => true
  | None => false
  end.

(** The parameters handed to [sendCommand]: [nil], or one of the maps built
    by the path model. *)
Inductive Params : Type :=
| ParamsNil
| ParamsMap (m : gmap string (list string)).

(** Dynamic type of an [interface{}] value, as far as [sendCommand] tells
    them apart. *)
Inductive DynType : Type := TMap | TFloat64 | TOther.

(** The codec libraries the client calls: [oj.ParseString],
    [jp.ParseString], [Expr.Get], [json.Unmarshal] and [json.Marshal].
    [Node] is the data they produce (Go's [interface{}]). *)
Class Extern : Type := {
  Node : Type;
  Expr : Type;
  ojParseString : string -> error + Node;
  jpParseString : string -> error + Expr;
  jpGet : Expr -> Node -> list Node;
  jsonUnmarshal : string -> error + Node;
  jsonMarshal : Params -> error + string;
  dynType : Node -> DynType
}.

(** [jsonrpc2.JsonRpcMessage], by its [GetType()], with the fields the
    client reads.  [msg.ID] is an [interface{}]: a [float64] or something
    else (a string, [nil]).  The keys of the response table are ids that
    the client assigned, hence whole numbers; a reply that carries any
    other number finds no entry there, as a whole number that is not
    pending does. *)
Inductive MsgID : Type :=
| IDFloat (k : float64)
| IDOther.

Inductive JsonRpcMessage : Type :=
| TypeRequestMsg (ID : MsgID) (Method : string) (Params_ : string)
| TypeErrorMsg (ID : MsgID) (Code : Z) (Message : string) (Data : string)
| TypeInvalidMsg (ID : MsgID)
| TypeSuccessMsg (ID : MsgID) (Result : string)
| TypeNotificationMsg (Method : string) (Params_ : string).

(** [jsonrpc2.NewJsonRpcRequest(id, method, params)] *)
Record Request : Type := NewJsonRpcRequest {
  req_id : float64;
  req_method : string;
  req_params : string
}.

(** [type Client struct]; the three mutexes delimit the atomic steps and
    have no field here.  A map that was never made reads as the empty
    map. *)
Record Client : Type := mkClient {
  User : string;
  Password : string;
  Insecure : bool;
  URL : string;
  client : option rpcClient;
  seq : float64;
  callbacks : gmap Path CallbackFunc;
  responseChans : gmap float64 chan;
  OnConnectFunc : option funcId
}.

Definition set_client (v : option rpcClient) (c : Client) : Client :=
  mkClient (User c) (Password c) (Insecure c) (URL c) v (seq c)
    (callbacks c) (responseChans c) (OnConnectFunc c).
Definition set_seq (v : float64) (c : Client) : Client :=
  mkClient (User c) (Password c) (Insecure c) (URL c) (client c) v
    (callbacks c) (responseChans c) (OnConnectFunc c).
Definition set_callbacks (v : gmap Path CallbackFunc) (c : Client) : Client :=
  mkClient (User c) (Password c) (Insecure c) (URL c) (client c) (seq c)
    v (responseChans c) (OnConnectFunc c).
Definition set_responseChans (v : gmap float64 chan) (c : Client) : Client :=
  mkClient (User c) (Password c) (Insecure c) (URL c) (client c) (seq c)
    (callbacks c) v (OnConnectFunc c).

Section Model.
Context `{E : Extern}.

(** A value that travels on a response channel. *)
Inductive any : Type :=
| AnyError (e : error)
| AnyValue (v : Node).

Inductive Effect : Type :=
| WriteMessage (msg : Request)
| ChanSend (ch : chan) (res : any)
| ChanClose (ch : chan)
| GoCallback (f : funcId) (res : list Node)
| GoOnConnect (f : funcId)
| ConnClose (conn : rpcClient).

(** What the surroundings answer to one [sendCommand]: the channel that
    [make] returns, the result of [WriteMessage], and the value that
    arrives on the channel. *)
Record SendEnv : Type := {
  env_chan : chan;
  env_write : option error;
  env_recv : any
}.

(** The deferred function of [sendCommand]. *)
Definition sendCommand_deferred (myseq : float64) (c : Client) : Client :=
  set_responseChans (delete myseq (responseChans c)) c.

Definition sendCommand (c : Client) (command : Command) (params : Params)
    (env : SendEnv) : Client * outcome any * list Effect :=
  match client c with
  | None => (c, Err ErrNotConnected, [])
  | Some _ =>
    let c := set_seq (float64_inc (seq c)) c in
    let myseq := seq c in
    match jsonMarshal params with
    | inl err => (c, Err err, [])
    | inr data =>
      let msg := NewJsonRpcRequest myseq command data in
      let rc := env_chan env in
      let c := set_responseChans (<[myseq := rc]> (responseChans c)) c in
      match env_write env with
      | Some err =>
        (sendCommand_deferred myseq c, Err (Wrap "write message" err),
         [WriteMessage msg; ChanClose rc])
      | None =>
        let r := env_recv env in
        (sendCommand_deferred myseq c,
         match r with
         | AnyError e => Err e
         | AnyValue v =>
           match dynType v with
           | TMap | TFloat64 => Ok r
           | TOther => Err (Wrap "receive" ErrUnknownResponse)
           end
         end,
         [WriteMessage msg; ChanClose rc])
      end
    end
  end.

(** [cancelFunc(path)()] *)
Definition cancelFunc (c : Client) (path : Path) (env : SendEnv)
  : Client * outcome unit * list Effect :=
  let c := set_callbacks (delete path (callbacks c)) c in
  let '(c, r, eff) :=
    sendCommand c feedbackUnsubscribe (ParamsMap (toSubQuery path)) env in
  (c, match r with
      | Ok _ => Ok tt
      | Err e => Err e
      | Panic p => Panic p
      end, eff).

(** [Subscribe]; the handle it returns is [cancelFunc(path)], written as
    the path it closes over. *)
Definition Subscribe (c : Client) (path : Path) (callback : CallbackFunc)
    (env : SendEnv) : Client * outcome Path * list Effect :=
  let '(c, r, eff) :=
    sendCommand c feedbackSusbscribe (ParamsMap (toSubQuery path)) env in
  match r with
  | Err e => (c, Err e, eff)
  | Panic p => (c, Panic p, eff)
  | Ok _ =>
    (set_callbacks (<[path := callback]> (callbacks c)) c, Ok path, eff)
  end.

(** [Get] *)
Definition Get (c : Client) (path : Path) (env : SendEnv)
  : Client * outcome any * list Effect :=
  sendCommand c getCommand (ParamsMap (toGetParams path)) env.

(** [chanResponse] *)
Definition chanResponse (c : Client) (ID : MsgID) (res : any)
  : outcome unit * list Effect :=
  match ID with
  | IDOther => (Err ErrMissingIDField, [])
  | IDFloat k =>
    match responseChans c !! k with
    | None => (Err ErrMissingChannel, [])
    | Some ch => (Ok tt, [ChanSend ch res])
    end
  end.

(** The [range] loop of [runCallbacks] over the entries in the order
    [entries]; it gives the final [res] and [cbFunc]. *)
Fixpoint rangeCallbacks (entries : list (Path * CallbackFunc)) (event : Node)
  : error + (option (list Node) * CallbackFunc) :=
  match entries with
  | [] => inr (None, None)
  | (k, v) :: rest =>
    match jpParseString (toJSONPath k) with
    | inl err => inl err
    | inr cjp =>
      let r := jpGet cjp event in
      if (0 <? length r)%nat && notNil v
      then inr (Some r, v)
      else rangeCallbacks rest event
    end
  end.

(** [runCallbacks]; [entries] is the order in which this [range] visits
    [c.callbacks]. *)
Definition runCallbacks (entries : list (Path * CallbackFunc))
    (params : string) : outcome unit * list Effect :=
  match ojParseString params with
  | inl err => (Err (Wrap "running callback" err), [])
  | inr event =>
    match rangeCallbacks entries event with
    | inl err => (Err (Wrap "jpath" err), [])
    | inr (None, _) => (Err ErrMissingData, [])
    | inr (Some _, None) => (Err ErrMissingCallback, [])
    | inr (Some res, Some cbFunc) => (Ok tt, [GoCallback cbFunc res])
    end
  end.

(** One [ReadMessage] and the iteration order of the registry at that
    moment. *)
Inductive ReadResult : Type :=
| ReadErr (err : error)
| ReadMsg (msg : JsonRpcMessage).

Record Inbound : Type := {
  inb_read : ReadResult;
  inb_range : list (Path * CallbackFunc)
}.

(** [runLoop] *)
Definition runLoop (c : Client) (inb : Inbound)
  : outcome unit * list Effect :=
  match inb_read inb with
  | ReadErr err => (Err (Wrap "runloop" err), [])
  | ReadMsg msg =>
    match msg with
    | TypeRequestMsg _ _ _ => (Err (Wrap "type request" ErrUnsupportedMsg), [])
    | TypeErrorMsg ID code message data =>
      chanResponse c ID (AnyError (JSONRPCError code data message))
    | TypeInvalidMsg ID => chanResponse c ID (AnyError ErrInvalidMsg)
    | TypeSuccessMsg ID result =>
      match jsonUnmarshal result with
      | inl err => (Err err, [])
      | inr res => chanResponse c ID (AnyValue res)
      end
    | TypeNotificationMsg _ params => runCallbacks (inb_range inb) params
    end
  end.

(** How far [Run] got: it returned an error, it panicked, or it waits in
    [ReadMessage] for the next frame. *)
Inductive RunResult : Type :=
| Returned (err : error)
| Panicked (reason : string)
| Reading.

(** The id under which a frame is handed to [chanResponse], when it is a
    number. *)
Definition replyKey (inb : Inbound) : option float64 :=
  match inb_read inb with
  | ReadMsg (TypeErrorMsg (IDFloat k) _ _ _)
  | ReadMsg (TypeInvalidMsg (IDFloat k))
  | ReadMsg (TypeSuccessMsg (IDFloat k) _) => Some k
  | _ => None
  end.

(** The client when the next frame is handled.  [runLoop] itself changes
    nothing; the caller that a delivered reply wakes up returns from
    [sendCommand], and the deferred function there deletes the entry of its
    id from the response table (and closes the channel) before the next
    frame is handled. *)
Definition afterFrame (c : Client) (inb : Inbound) : Client :=
  match replyKey inb with
  | Some k => sendCommand_deferred k c
  | None => c
  end.

(** The [for] loop of [Run] over the frames that arrive; the frames that
    were not read are given back. *)
Fixpoint runFrames (c : Client) (inbound : list Inbound)
  : RunResult * list Effect * list Inbound :=
  match inbound with
  | [] => (Reading, [], [])
  | inb :: rest =>
    match runLoop c inb with
    | (Err err, eff) => (Returned err, eff, rest)
    | (Panic p, eff) => (Panicked p, eff, rest)
    | (Ok _, eff) =>
      let '(r, eff', unread) := runFrames (afterFrame c inb) rest in
      (r, eff ++ eff', unread)
    end
  end.

(** [Run] *)
Definition Run (c : Client) (inbound : list Inbound)
  : RunResult * list Effect * list Inbound :=
  match client c with
  | None => (Returned ErrNotConnected, [], inbound)
  | Some _ => runFrames c inbound
  end.

(** [Close]; [closeErr] is what the connection's [Close] returns.  The
    method is called on [c.client] whatever it holds. *)
Definition Close (c : Client) (closeErr : option error)
  : outcome unit * list Effect :=
  match client c with
  | None => (Panic nilDereference, [])
  | Some conn =>
    match closeErr with
    | Some err => (Err (Wrap "xapi client close" err), [ConnClose conn])
    | None => (Ok tt, [ConnClose conn])
    end
  end.

(** [ConnectContext]; [dial] is the result of [DialContext] and [bodyErr]
    that of closing the handshake response. *)
Definition ConnectContext (c : Client) (dial : error + rpcClient)
    (bodyErr : option error) : Client * outcome unit * list Effect :=
  let c := set_callbacks ∅ c in
  let c := set_responseChans ∅ c in
  match encCreds (User c) (Password c) with
  | Err err => (c, Err (Wrap "connect" err), [])
  | Panic p => (c, Panic p, [])
  | Ok encpw =>
    match dial with
    | inl err => (c, Err (Wrap "dial" err), [])
    | inr wsc =>
      match bodyErr with
      | Some err => (c, Err (Wrap "connect" err), [])
      | None =>
        (set_client (Some wsc) c, Ok tt,
         match OnConnectFunc c with
         | Some f => [GoOnConnect f]
         | None => []
         end)
      end
    end
  end.

(** The sequence ids that successive calls of [sendCommand] assign: after
    each call, the value the counter was stepped to. *)
Fixpoint assignedIds (c : Client) (calls : list (Command * Params * SendEnv))
  : list float64 :=
  match calls with
  | [] => []
  | (command, params, env) :: rest =>
    let '(c', _, _) := sendCommand c command params env in
    seq c' :: assignedIds c' rest
  end.

Fixpoint afterCalls (c : Client) (calls : list (Command * Params * SendEnv))
  : Client :=
  match calls with
  | [] => c
  | (command, params, env) :: rest =>
    let '(c', _, _) := sendCommand c command params env in
    afterCalls c' rest
  end.


(** The result of evaluating the query of path [k] on [event]. *)
Definition queryResult (k : Path) (event : Node) : error + list Node :=
  match jpParseString (toJSONPath k) with
  | inl err => inl err
  | inr cjp => inr (jpGet cjp event)
  end.

(** The query of a subscription parses and finds nothing in [event]. *)
Definition noResult (event : Node) (kv : Path * CallbackFunc) : Prop :=
  queryResult kv.1 event = inr [].

End Model.

(** ** A stand-in for the codec libraries

    Enough of the libraries to run the client on examples: a document is a
    chain of nested one-key objects, written as its keys between spaces; a
    query is the list of keys that follow the ["$."] marker, and it selects
    the value found by going down these keys from the root. *)

Inductive Tree : Type :=
| Leaf
| Obj (key : string) (child : Tree).

Definition chain (keys : list string) : Tree := fold_right Obj Leaf keys.

Definition stubParse (s : string) : error + Tree :=
  match Fields s with
  | [] => inl (LibError "empty document")
  | keys => inr (chain keys)
  end.

Definition stubQuery (q : string) : error + list string :=
  match jsonPathSegments q with
  | Some segs => inr segs
  | None => inl (LibError "bad query")
  end.

Fixpoint stubGet (segs : list string) (t : Tree) : list Tree :=
  match segs with
  | [] => [t]
  | x :: xs =>
    match t with
    | Obj k child => if String.eqb x k then stubGet xs child else []
    | Leaf => []
    end
  end.

Definition stubMarshal (params : Params) : error + string :=
  match params with
  | ParamsNil => inr "null"
  | ParamsMap m => inr (String.concat "," (concat (snd <$> map_to_list m)))
  end.

Definition stubDynType (t : Tree) : DynType :=
  match t with
  | Obj _ _ => TMap
  | Leaf => TOther
  end.

#[local] Instance stubExtern : Extern := {|
  Node := Tree;
  Expr := list string;
  ojParseString := stubParse;
  jpParseString := stubQuery;
  jpGet := stubGet;
  jsonUnmarshal := stubParse;
  jsonMarshal := stubMarshal;
  dynType := stubDynType
|}.

(** A client that is connected (connection [1]) and has issued nothing. *)
Definition connected : Client :=
  mkClient "bob" "secret" false "wss://device/ws" (Some 1%nat) 0%Z ∅ ∅ None.

(** A client on which no connect method was called. *)
Definition unconnected : Client :=
  mkClient "bob" "secret" false "wss://device/ws" None 0%Z ∅ ∅ None.

(** The answer of a device that accepts the command. *)
Definition accepted : @SendEnv stubExtern :=
  {| env_chan := 7%nat; env_write := None;
     env_recv := AnyValue (Obj "status" Leaf) |}.

(** The write to the connection fails. *)
Definition writeFails : @SendEnv stubExtern :=
  {| env_chan := 7%nat; env_write := Some (LibError "broken pipe");
     env_recv := AnyValue Leaf |}.



(** ** Notions used in the statements *)

(** A character that may stand in a URL-safe token: none of [+], [/]
    and [=]. *)
Definition urlSafe (c : ascii) : Prop :=
  c <> "+"%char /\ c <> "/"%char /\ c <> "="%char.

(** The replacer takes each of the 64 characters of the standard alphabet
    to the character of the URL alphabet at the same place. *)
Definition sextetsAgree : bool :=
  forallb
    (fun i : nat =>
       String.eqb (replaceByte (encAt StdEncoding (N.of_nat i)))
         (String (encAt RawURLEncoding (N.of_nat i)) ""))
    (List.seq 0 64).

Definition isOk {A : Type} (r : outcome A) : Prop := exists a, r = Ok a.

(** The entries of the registry that are filed under [path]. *)
Definition entriesAt (path : Path) (c : Client) : list (Path * CallbackFunc) :=
  filter (fun kv => kv.1 = path) (map_to_list (callbacks c)).

(** At most one callback is registered for each path. *)
Definition onePerPath (c : Client) : Prop :=
  forall path, length (entriesAt path c) <= 1.

(** One more [Mute] that the device accepts. *)
Definition muteCall : Command * Params * @SendEnv stubExtern :=
  (muteCommand, ParamsNil, accepted).

(** ** More of the client (file [client.go]) *)

Definition unmuteCommand : Command := "xCommand/Audio/Microphones/Unmute".

(** The values that the options of [TextInput] put in the argument map: a
    string, a [TextInputType], or the seconds of a duration (given here by
    the duration itself, in nanoseconds). *)
Inductive ArgValue : Type :=
| VString (s : string)
| VInputType (t : string)
| VSeconds (dur : Z).

(** [type TextInputOption func(map[string]interface{})]: the map after the
    call, from the map before it. *)
Definition TextInputOption : Type :=
  gmap string ArgValue -> gmap string ArgValue.

Definition WithDuration (dur : Z) : TextInputOption :=
  fun args => <["Duration" := VSeconds dur]> args.
Definition WithInputText (text : string) : TextInputOption :=
  fun args => <["InputText" := VString text]> args.
Definition WithInputType (inputType : string) : TextInputOption :=
  fun args => <["InputType" := VInputType inputType]> args.
Definition WithInputKeyboardHidden : TextInputOption :=
  fun args => <["KeyboardState" := VString "Closed"]> args.
Definition WithPlaceholderText (text : string) : TextInputOption :=
  fun args => <["Placeholder" := VString text]> args.
Definition WithSubmitText (text : string) : TextInputOption :=
  fun args => <["SubmitText" := VString text]> args.
Definition WithTitle (text : string) : TextInputOption :=
  fun args => <["Title" := VString text]> args.

(** The options that the package itself provides. *)
Inductive provided : TextInputOption -> Prop :=
| provided_Duration dur : provided (WithDuration dur)
| provided_InputText text : provided (WithInputText text)
| provided_InputType t : provided (WithInputType t)
| provided_KeyboardHidden : provided WithInputKeyboardHidden
| provided_PlaceholderText text : provided (WithPlaceholderText text)
| provided_SubmitText text : provided (WithSubmitText text)
| provided_Title text : provided (WithTitle text).

(** The argument map that [TextInput] builds before it subscribes: the two
    fixed entries, then every option applied in turn. *)
Definition TextInput_args (text : string) (opts : list TextInputOption)
  : gmap string ArgValue :=
  fold_left (fun args v => v args) opts
    (<["Text" := VString text]>
       (<["FeedbackId" := VString "go-text-input-id"]> ∅)).

Section MoreModel.
Context `{E : Extern}.

(** [Mute] and [UnMute]: the value of the reply is dropped. *)
Definition errorOnly (r : outcome any) : outcome unit :=
  match r with
  | Ok _ => Ok tt
  | Err e => Err e
  | Panic p => Panic p
  end.

Definition Mute (c : Client) (env : SendEnv)
  : Client * outcome unit * list Effect :=
  let '(c, r, eff) := sendCommand c muteCommand ParamsNil env in
  (c, errorOnly r, eff).

Definition UnMute (c : Client) (env : SendEnv)
  : Client * outcome unit * list Effect :=
  let '(c, r, eff) := sendCommand c unmuteCommand ParamsNil env in
  (c, errorOnly r, eff).

(** [Connect]: [ConnectContext] with the background context. *)
Definition Connect (c : Client) (dial : error + rpcClient)
    (bodyErr : option error) : Client * outcome unit * list Effect :=
  ConnectContext c dial bodyErr.

(** [ConnectAndRun] *)
Definition ConnectAndRun (c : Client) (dial : error + rpcClient)
    (bodyErr : option error) (inbound : list Inbound)
  : Client * (RunResult * list Effect * list Inbound) :=
  let '(c, r, eff) := Connect c dial bodyErr in
  match r with
  | Err err => (c, (Returned err, eff, inbound))
  | Panic p => (c, (Panicked p, eff, inbound))
  | Ok _ =>
    let '(r', eff', unread) := Run c inbound in
    (c, (r', eff ++ eff', unread))
  end.



(** An option that writes the entry [key], with the value [v], and leaves
    the rest of the map as it is. *)
Definition writes (o : TextInputOption) (key : string) (v : ArgValue) : Prop :=
  forall args, o args = <[key := v]> args.

(** The frames among the effects, in the order they were written. *)
Definition written (eff : list Effect) : list Request :=
  omap (fun e => match e with WriteMessage msg => Some msg | _ => None end)
    eff.

End MoreModel.

(** *** Data for the examples *)


(** A connected client with one subscription, to ["Status Audio"]. *)
Definition subscribed : Client :=
  set_callbacks (<["Status Audio" := Some 3%nat]> ∅) connected.

Definition replyTo (k : Z) : Inbound :=
  {| inb_read := ReadMsg (TypeSuccessMsg (IDFloat k) "status");
     inb_range := [] |}.


Definition eventNotification : Inbound :=
  {| inb_read := ReadMsg (TypeNotificationMsg "xFeedback/Event" "Event Shutdown");
     inb_range := [("Status Audio", Some 3%nat)] |}.

(** ** Lemmas on the path model *)

Lemma sapp_nil_l (b : string) : "" +:+ b = b.
Proof. reflexivity. Qed.

Lemma sapp_cons (c : ascii) (a b : string) :
  String c a +:+ b = String c (a +:+ b).
Proof. reflexivity. Qed.

Lemma sapp_nil_r (s : string) : s +:+ "" = s.
Proof.
  induction s as [|c s IH]; [reflexivity |].
  rewrite sapp_cons. f_equal. exact IH.
Qed.

Lemma sapp_assoc (a b c : string) : (a +:+ b) +:+ c = a +:+ (b +:+ c).
Proof.
  induction a as [|x a IH]; [reflexivity |].
  rewrite !sapp_cons. f_equal. exact IH.
Qed.

Lemma fold_sprintf_dot (segs : list string) (acc : string) :
  fold_left sprintf_dot segs acc = acc +:+ dotted segs.
Proof.
  revert acc. induction segs as [|x xs IH]; intros acc; simpl.
  - now rewrite sapp_nil_r.
  - rewrite IH. unfold sprintf_dot. rewrite sapp_assoc. reflexivity.
Qed.

Lemma toJSONPath_dotted (p : Path) :
  toJSONPath p = "$." +:+ dotted (Fields p).
Proof. unfold toJSONPath. apply fold_sprintf_dot. Qed.

Lemma splitDot_nonempty (s : string) : splitDot s <> [].
Proof.
  destruct s as [|c s]; simpl; [discriminate |].
  destruct (Ascii.eqb c "."); [discriminate |].
  destruct (splitDot s); discriminate.
Qed.

Lemma splitDot_seg (x rest : string) :
  dotFree x = true ->
  splitDot (x +:+ rest) =
    match splitDot rest with
    | h :: t => (x +:+ h) :: t
    | [] => [x]
    end.
Proof.
  induction x as [|c x IH]; intros Hx.
  - rewrite sapp_nil_l. destruct (splitDot rest) eqn:E; [|reflexivity].
    now destruct (splitDot_nonempty rest).
  - simpl in Hx. apply andb_prop in Hx as [Hc Hx].
    rewrite sapp_cons. simpl.
    destruct (Ascii.eqb c "."); [discriminate |].
    rewrite (IH Hx). destruct (splitDot rest) eqn:E; [|reflexivity].
    now destruct (splitDot_nonempty rest).
Qed.

Lemma splitDot_dotted (segs : list string) :
  Forall (fun seg => dotFree seg = true) segs ->
  splitDot (dotted segs) = "" :: segs.
Proof.
  induction 1 as [|x xs Hx Hxs IH]; [reflexivity |].
  cbn [dotted]. rewrite sapp_cons, sapp_nil_l. cbn [splitDot].
  change (Ascii.eqb "." ".") with true. cbv iota.
  rewrite (splitDot_seg x (dotted xs) Hx), IH.
  now rewrite sapp_nil_r.
Qed.

Lemma Fields_nonempty_segments_aux (s : string) :
  forall k sp cur, Forall (fun seg => seg <> "") (fieldsLoop s k sp cur).
Proof.
  induction s as [|b s IH]; intros k sp cur; cbn [fieldsLoop].
  - destruct cur; simpl; [constructor | repeat constructor; discriminate].
  - destruct k as [|k].
    + destruct (decodeRune (String b s)) as [r w].
      destruct (IsSpace r); [|apply IH].
      destruct cur; simpl; [apply IH | constructor; [discriminate | apply IH]].
    + destruct sp; apply IH.
Qed.

Lemma Fields_nonempty_segments (s : string) :
  Forall (fun seg => seg <> "") (Fields s).
Proof. apply Fields_nonempty_segments_aux. Qed.

Lemma jsonPathSegments_dotted (segs : list string) :
  Forall (fun seg => dotFree seg = true) segs ->
  Forall (fun seg => seg <> "") segs ->
  jsonPathSegments ("$." +:+ dotted segs) = Some segs.
Proof.
  intros Hd Hn. rewrite !sapp_cons, sapp_nil_l. cbn [jsonPathSegments].
  rewrite (splitDot_dotted segs Hd).
  destruct segs as [|x xs]; [reflexivity |].
  destruct xs; [|reflexivity].
  inversion Hn as [|? ? Hx _]; subst. destruct x; [congruence | reflexivity].
Qed.

(** *** C5, C6: the three renderings *)

Example Fields_volume :
  Fields "Status  Audio Volume " = ["Status"; "Audio"; "Volume"].
Proof. reflexivity. Qed.

Example toJSONPath_volume :
  toJSONPath StatusAudioVolumeLevel = "$..Status.Audio.Volume".
Proof. reflexivity. Qed.

Example toJSONPath_empty : toJSONPath "" = "$.".
Proof. reflexivity. Qed.

(** C5 (the code departs from it): the dot path of a path is ["$."]
    followed by one dot before each segment, so that two dots, not one,
    stand between ["$"] and the first segment: the path
    ["Status Audio"] is rendered ["$..Status.Audio"] and not
    ["$.Status.Audio"]. *)
Theorem toJSONPath_two_dots :
  (forall p : Path, toJSONPath p = "$." +:+ dotted (Fields p)) /\
  toJSONPath "Status Audio" = "$..Status.Audio" /\
  toJSONPath "Status Audio" <> "$.Status.Audio".
Proof.
  split; [exact toJSONPath_dotted |].
  split; [reflexivity | discriminate].
Qed.

(** C6: for a path none of whose segments holds a dot, the subscribe
    query, the get parameters and the dot path each hold exactly the
    segments of the path, in the same order and number. *)
Theorem renderings_preserve_segments (p : Path) :
  validPath p ->
  toSubQuery p !! "Query" = Some (Fields p) /\
  toGetParams p !! "Path" = Some (Fields p) /\
  jsonPathSegments (toJSONPath p) = Some (Fields p) /\
  toJSONPath p = "$." +:+ dotted (Fields p) /\
  size (toSubQuery p) = 1 /\ size (toGetParams p) = 1.
Proof.
  intros Hv. unfold toSubQuery, toGetParams.
  rewrite !lookup_singleton_eq, !map_size_singleton, toJSONPath_dotted.
  repeat split.
  apply jsonPathSegments_dotted; [exact Hv | apply Fields_nonempty_segments].
Qed.

Lemma renderings_preserve_segments_witness :
  validPath StatusAudioVolumeLevel /\
  jsonPathSegments (toJSONPath StatusAudioVolumeLevel)
    = Some ["Status"; "Audio"; "Volume"].
Proof.
  assert (Hv : validPath StatusAudioVolumeLevel)
    by (unfold validPath; vm_compute; repeat constructor).
  split; [exact Hv |].
  exact (proj1 (proj2 (proj2
    (renderings_preserve_segments StatusAudioVolumeLevel Hv)))).
Defined.

(** *** C7: the credential token *)

Lemma string_ind3 (P : string -> Prop) :
  P "" ->
  (forall a, P (String a "")) ->
  (forall a b, P (String a (String b ""))) ->
  (forall a b c s, P s -> P (String a (String b (String c s)))) ->
  forall s, P s.
Proof.
  intros H0 H1 H2 H3. fix IH 1. intros s.
  destruct s as [|a [|b [|c s]]].
  - exact H0.
  - apply H1.
  - apply H2.
  - apply H3, IH.
Qed.

Lemma sextet_lt (val shift : N) : (sextet val shift < 64)%N.
Proof.
  unfold sextet. change 0x3F%N with (N.ones 6).
  rewrite N.land_ones. apply N.mod_lt. discriminate.
Qed.

Lemma replaceByte_encAt (i : N) :
  (i < 64)%N ->
  replaceByte (encAt StdEncoding i) = String (encAt RawURLEncoding i) "".
Proof.
  intros Hi.
  assert (Hall : sextetsAgree = true) by (vm_compute; reflexivity).
  unfold sextetsAgree in Hall. rewrite forallb_forall in Hall.
  specialize (Hall (N.to_nat i)).
  rewrite N2Nat.id in Hall. apply String.eqb_eq, Hall.
  apply in_seq. lia.
Qed.

Lemma Replace_cons (c : ascii) (s : string) :
  Replace (String c s) = replaceByte c +:+ Replace s.
Proof. reflexivity. Qed.

Lemma Replace_sextet (val shift : N) (s : string) :
  Replace (String (encAt StdEncoding (sextet val shift)) s) =
  String (encAt RawURLEncoding (sextet val shift)) (Replace s).
Proof.
  rewrite Replace_cons, replaceByte_encAt by apply sextet_lt. reflexivity.
Qed.

(** Replacing in the padded standard encoding gives the unpadded URL
    encoding. *)
Lemma Replace_StdEncoding (src : string) :
  Replace (EncodeToString StdEncoding src) = EncodeToString RawURLEncoding src.
Proof.
  induction src as [|a|a b|a b c s IH] using string_ind3.
  - reflexivity.
  - cbn [EncodeToString]. rewrite !Replace_sextet. reflexivity.
  - cbn [EncodeToString]. rewrite !Replace_sextet. reflexivity.
  - cbn [EncodeToString]. rewrite !Replace_sextet, IH. reflexivity.
Qed.

Lemma chars_app (a b : string) : chars (a +:+ b) = chars a ++ chars b.
Proof.
  induction a as [|x a IH]; [reflexivity |].
  rewrite sapp_cons. unfold chars in *. simpl. now rewrite IH.
Qed.

Lemma replaceByte_urlSafe (c : ascii) : Forall urlSafe (chars (replaceByte c)).
Proof.
  unfold replaceByte.
  destruct (Ascii.eqb c "+") eqn:E1;
    [repeat constructor; discriminate |].
  destruct (Ascii.eqb c "/") eqn:E2;
    [repeat constructor; discriminate |].
  destruct (Ascii.eqb c "=") eqn:E3; [constructor |].
  apply Ascii.eqb_neq in E1, E2, E3.
  repeat constructor; assumption.
Qed.

Lemma Replace_urlSafe (s : string) : Forall urlSafe (chars (Replace s)).
Proof.
  induction s as [|c s IH]; [constructor |].
  rewrite Replace_cons, chars_app. apply Forall_app.
  split; [apply replaceByte_urlSafe | exact IH].
Qed.

(** C7: [encCreds] fails, with [ErrInvalidCredentials], exactly when the
    user or the password is empty; otherwise its result is the prefix
    ["auth-"] followed by the unpadded URL-safe base64 encoding of
    ["user:password"], and holds none of the characters [+], [/], [=]. *)
Theorem encCreds_spec (user password : string) :
  (encCreds user password = Err ErrInvalidCredentials <->
   user = "" \/ password = "") /\
  (forall e, encCreds user password = Err e -> e = ErrInvalidCredentials) /\
  (forall reason, encCreds user password <> Panic reason) /\
  (user <> "" -> password <> "" ->
   encCreds user password =
     Ok (credPrefix +:+
         EncodeToString RawURLEncoding (user +:+ ":" +:+ password))) /\
  (forall tok, encCreds user password = Ok tok -> Forall urlSafe (chars tok)).
Proof.
  unfold encCreds. rewrite Replace_StdEncoding.
  destruct (String.eqb user "") eqn:Eu; [apply String.eqb_eq in Eu |
    apply String.eqb_neq in Eu];
  (destruct (String.eqb password "") eqn:Ep; [apply String.eqb_eq in Ep |
    apply String.eqb_neq in Ep]); cbn [orb].
  1-3: repeat split; intros; try congruence; auto; try discriminate.
  repeat split; intros; try congruence; try discriminate.
  - destruct H; contradiction.
  - injection H as <-. rewrite chars_app. apply Forall_app. split.
    + repeat constructor; discriminate.
    + rewrite <- Replace_StdEncoding. apply Replace_urlSafe.
Qed.

Example encCreds_bob : encCreds "bob" "secret" = Ok "auth-Ym9iOnNlY3JldA".
Proof. reflexivity. Qed.

Example encCreds_no_user : encCreds "" "x" = Err ErrInvalidCredentials.
Proof. reflexivity. Qed.

Example encCreds_no_password : encCreds "x" "" = Err ErrInvalidCredentials.
Proof. reflexivity. Qed.

(** ** Notification dispatch *)

Section Dispatch.
Context `{E : Extern}.

Lemma rangeCallbacks_skip (event : Node) (pre rest : list (Path * CallbackFunc)) :
  Forall (noResult event) pre ->
  rangeCallbacks (pre ++ rest) event = rangeCallbacks rest event.
Proof.
  induction 1 as [|[k v] pre Hk _ IH]; [reflexivity |].
  unfold noResult, queryResult in Hk. cbn [fst] in Hk.
  cbn [app rangeCallbacks].
  destruct (jpParseString (toJSONPath k)) as [err|cjp]; [discriminate |].
  injection Hk as ->. cbn. exact IH.
Qed.

Lemma rangeCallbacks_hit (event : Node) (k : Path) (f : funcId)
    (r : list Node) (post : list (Path * CallbackFunc)) :
  queryResult k event = inr r -> r <> [] ->
  rangeCallbacks ((k, Some f) :: post) event = inr (Some r, Some f).
Proof.
  unfold queryResult. intros Hq Hr. cbn [rangeCallbacks].
  destruct (jpParseString (toJSONPath k)) as [err|cjp]; [discriminate |].
  injection Hq as ->. destruct r as [|x r]; [congruence |]. reflexivity.
Qed.

(** Whenever the loop leaves a result in [res], it leaves a function in
    [cbFunc]. *)
Lemma rangeCallbacks_res_cbFunc (event : Node)
    (entries : list (Path * CallbackFunc)) res cbFunc :
  rangeCallbacks entries event = inr (res, cbFunc) ->
  (res = None /\ cbFunc = None) \/ (exists r f, res = Some r /\ cbFunc = Some f).
Proof.
  induction entries as [|[k v] entries IH]; cbn [rangeCallbacks].
  - intros [= <- <-]. now left.
  - destruct (jpParseString (toJSONPath k)) as [err|cjp]; [discriminate |].
    destruct ((0 <? length (jpGet cjp event))%nat) eqn:Hlen; cbn [andb];
      [|exact IH].
    destruct v as [f|]; cbn; [|exact IH].
    intros [= <- <-]. right. eauto.
Qed.

Lemma rangeCallbacks_no_callback (event : Node)
    (entries : list (Path * CallbackFunc)) :
  Forall (fun kv => kv.2 = None \/ noResult event kv) entries ->
  (forall kv, kv ∈ entries -> exists r, queryResult kv.1 event = inr r) ->
  rangeCallbacks entries event = inr (None, None).
Proof.
  induction 1 as [|[k v] entries Hk _ IH]; intros Hq; [reflexivity |].
  cbn [rangeCallbacks].
  destruct (Hq (k, v)) as [r Hr]; [left |].
  unfold noResult, queryResult in *. cbn [fst snd] in *.
  destruct (jpParseString (toJSONPath k)) as [err|cjp]; [discriminate |].
  injection Hr as <-.
  assert (Hgo : ((0 <? length (jpGet cjp event))%nat && notNil v) = false).
  { destruct Hk as [-> | Hk].
    - apply andb_false_r.
    - injection Hk as ->. reflexivity. }
  cbv zeta. rewrite Hgo. apply IH. intros kv Hkv. apply Hq. now right.
Qed.

End Dispatch.

(** Dispatch when the first match holds a function.  For a notification
    whose payload parses and for every order in which the registry is
    visited: if the first subscription whose query gives a result that is
    not empty holds the function [f], dispatch calls [f] with that result
    and nothing else, whatever subscriptions come later; if the query of
    every subscription gives the empty result, dispatch fails with
    [ErrMissingData]. *)
Theorem runCallbacks_first_match `{E : Extern} (c : Client)
    (entries : list (Path * CallbackFunc)) (params : string) (event : Node) :
  entries ≡ₚ map_to_list (callbacks c) ->
  ojParseString params = inr event ->
  (forall pre k f post r,
     entries = pre ++ (k, Some f) :: post ->
     Forall (noResult event) pre ->
     queryResult k event = inr r -> r <> [] ->
     callbacks c !! k = Some (Some f) /\
     runCallbacks entries params = (Ok tt, [GoCallback f r])) /\
  (Forall (noResult event) entries ->
   runCallbacks entries params = (Err ErrMissingData, [])).
Proof.
  intros Hperm Hparse. split.
  - intros pre k f post r -> Hpre Hq Hr. split.
    + apply elem_of_map_to_list. rewrite <- Hperm.
      apply elem_of_app. right. left.
    + unfold runCallbacks. rewrite Hparse, (rangeCallbacks_skip _ _ _ Hpre).
      now rewrite (rangeCallbacks_hit _ _ _ _ _ Hq Hr).
  - intros Hall. unfold runCallbacks. rewrite Hparse.
    rewrite <- (app_nil_r entries), (rangeCallbacks_skip _ _ _ Hall).
    reflexivity.
Qed.

Lemma runCallbacks_first_match_witness :
  let c :=
    set_callbacks (<["Event" := Some 4%nat]> (<["Status Audio" := Some 3%nat]> ∅))
      connected in
  callbacks c !! "Status Audio" = Some (Some 3%nat) /\
  @runCallbacks stubExtern [("Event", Some 4%nat); ("Status Audio", Some 3%nat)]
    "Status Audio Volume"
    = (Ok tt, [GoCallback 3%nat [chain ["Volume"]]]).
Proof.
  intros c.
  assert (Hperm : [("Event", Some 4%nat); ("Status Audio", Some 3%nat)]
                  ≡ₚ map_to_list (callbacks c))
    by (vm_compute; apply perm_swap).
  assert (Hparse : @ojParseString stubExtern "Status Audio Volume"
                   = inr (chain ["Status"; "Audio"; "Volume"]))
    by reflexivity.
  apply (proj1 (runCallbacks_first_match (E := stubExtern) c _ _ _ Hperm Hparse)
           [("Event", Some 4%nat)] "Status Audio" 3%nat [] [chain ["Volume"]]).
  - reflexivity.
  - repeat constructor.
  - reflexivity.
  - discriminate.
Defined.

Lemma rangeCallbacks_nil_passed `{E : Extern} (event : Node) (k0 : Path)
    (r0 : list Node) (rest : list (Path * CallbackFunc)) :
  queryResult k0 event = inr r0 ->
  rangeCallbacks ((k0, None) :: rest) event = rangeCallbacks rest event.
Proof.
  unfold queryResult. intros Hq. cbn [rangeCallbacks].
  destruct (jpParseString (toJSONPath k0)) as [err|cjp]; [discriminate |].
  cbn. now rewrite andb_false_r.
Qed.

(** C1 (the code departs from it): the first subscription whose query
    gives a result does not always decide.  When its function is [nil] the
    loop passes over it, and a subscription that matches later is called:
    for the registry visited in the order ["Status"] (with a [nil]
    function), ["Status Audio"] (with the function [3]) and the payload
    ["Status Audio Volume"], under which both queries find data, dispatch
    calls the function of the second subscription. *)
Theorem runCallbacks_later_match_called :
  (forall (E : Extern) pre k0 k f post params event r0 r,
     ojParseString params = inr event ->
     Forall (noResult event) pre ->
     queryResult k0 event = inr r0 -> r0 <> [] ->
     queryResult k event = inr r -> r <> [] ->
     runCallbacks (pre ++ (k0, None) :: (k, Some f) :: post) params
       = (Ok tt, [GoCallback f r])) /\
  @queryResult stubExtern "Status" (chain ["Status"; "Audio"; "Volume"])
    = inr [chain ["Audio"; "Volume"]] /\
  @queryResult stubExtern "Status Audio" (chain ["Status"; "Audio"; "Volume"])
    = inr [chain ["Volume"]] /\
  @runCallbacks stubExtern [("Status", None); ("Status Audio", Some 3%nat)]
    "Status Audio Volume"
    = (Ok tt, [GoCallback 3%nat [chain ["Volume"]]]).
Proof.
  split; [|repeat split].
  intros E pre k0 k f post params event r0 r Hparse Hpre Hq0 Hr0 Hq Hr.
  unfold runCallbacks. rewrite Hparse, (rangeCallbacks_skip _ _ _ Hpre).
  rewrite (rangeCallbacks_nil_passed event k0 r0 _ Hq0).
  now rewrite (rangeCallbacks_hit _ _ _ _ _ Hq Hr).
Qed.

(** C8 (the code departs from it): dispatch never fails with
    [ErrMissingCallback].  A subscription whose query gives a result but
    whose function is [nil] is passed over by the loop, and when no other
    subscription matches the failure is [ErrMissingData]: so it is for the
    registry that holds ["Status"] with a [nil] function and the payload
    ["Status Audio"]. *)
Theorem runCallbacks_never_MissingCallback :
  (forall (E : Extern) entries params eff,
     runCallbacks entries params <> (Err ErrMissingCallback, eff)) /\
  (forall (E : Extern) entries params event,
     ojParseString params = inr event ->
     Forall (fun kv => kv.2 = None \/ noResult event kv) entries ->
     (forall kv, kv ∈ entries -> exists r, queryResult kv.1 event = inr r) ->
     runCallbacks entries params = (Err ErrMissingData, [])) /\
  @queryResult stubExtern "Status" (chain ["Status"; "Audio"])
    = inr [chain ["Audio"]] /\
  @runCallbacks stubExtern [("Status", None)] "Status Audio"
    = (Err ErrMissingData, []).
Proof.
  split; [|split; [|split; reflexivity]].
  - intros E entries params eff. unfold runCallbacks.
    destruct (ojParseString params) as [err|event]; [discriminate |].
    destruct (rangeCallbacks entries event) as [err|[res cbFunc]] eqn:Hr;
      [discriminate |].
    destruct (rangeCallbacks_res_cbFunc _ _ _ _ Hr)
      as [[-> ->] | (r & f & -> & ->)]; discriminate.
  - intros E entries params event Hparse Hall Hq. unfold runCallbacks.
    now rewrite Hparse, (rangeCallbacks_no_callback _ _ Hall Hq).
Qed.

(** ** Replies and the run loop *)

Section RunLoop.
Context `{E : Extern}.



End RunLoop.




(** C9: on a client whose [client] field is [nil], [Close] panics on the
    nil value, where [sendCommand] and [Run] return [ErrNotConnected]. *)
Theorem Close_without_connection `{E : Extern} (c : Client)
    (closeErr : option error) :
  client c = None ->
  Close c closeErr = (Panic nilDereference, []) /\
  Close c closeErr <> (Err ErrNotConnected, []) /\
  (forall command params env,
     sendCommand c command params env = (c, Err ErrNotConnected, [])) /\
  (forall inbound, Run c inbound = (Returned ErrNotConnected, [], inbound)).
Proof.
  intros Hc. unfold Close, sendCommand, Run. rewrite Hc.
  repeat split; discriminate.
Qed.

Lemma Close_without_connection_witness :
  client unconnected = None /\
  @Close stubExtern unconnected None = (Panic nilDereference, []).
Proof.
  split; [reflexivity |].
  exact (proj1 (Close_without_connection (E := stubExtern) unconnected None
                  eq_refl)).
Defined.

(** ** Commands and the registry *)

Section Commands.
Context `{E : Extern}.

Lemma sendCommand_callbacks (c : Client) command params env :
  callbacks (sendCommand c command params env).1.1 = callbacks c.
Proof.
  unfold sendCommand. destruct (client c); [|reflexivity].
  destruct (jsonMarshal params); [reflexivity |].
  destruct (env_write env); reflexivity.
Qed.

Lemma sendCommand_client (c : Client) command params env :
  client (sendCommand c command params env).1.1 = client c.
Proof.
  unfold sendCommand. destruct (client c) eqn:Hc; [|exact Hc].
  destruct (jsonMarshal params); [exact Hc |].
  destruct (env_write env); exact Hc.
Qed.

Lemma sendCommand_seq (c : Client) command params env :
  client c <> None ->
  seq (sendCommand c command params env).1.1 = float64_inc (seq c).
Proof.
  intros Hc. unfold sendCommand. destruct (client c); [|congruence].
  destruct (jsonMarshal params); [reflexivity |].
  destruct (env_write env); reflexivity.
Qed.

Lemma sendCommand_no_panic (c : Client) command params env reason :
  (sendCommand c command params env).1.2 <> Panic reason.
Proof.
  unfold sendCommand. destruct (client c); [|discriminate].
  destruct (jsonMarshal params); [discriminate |].
  destruct (env_write env); [discriminate |]. cbn.
  destruct (env_recv env) as [e|v]; [discriminate |].
  destruct (dynType v); discriminate.
Qed.

(** A frame that [sendCommand] writes carries the sequence id just
    assigned, the command, and the encoded parameters. *)
Lemma sendCommand_frame (c : Client) command params env msg :
  WriteMessage msg ∈ (sendCommand c command params env).2 ->
  req_id msg = seq (sendCommand c command params env).1.1 /\
  req_method msg = command /\
  jsonMarshal params = inr (req_params msg).
Proof.
  unfold sendCommand. destruct (client c); [|cbn; by intros ?%elem_of_nil].
  destruct (jsonMarshal params) as [err|data]; [cbn; by intros ?%elem_of_nil |].
  destruct (env_write env); cbn;
    intros [[= ->] | [[=] | ?%elem_of_nil]%elem_of_cons]%elem_of_cons;
    done.
Qed.

(** A command that succeeds was written to the connection. *)
Lemma sendCommand_Ok_written (c : Client) command params env v :
  (sendCommand c command params env).1.2 = Ok v ->
  exists msg, WriteMessage msg ∈ (sendCommand c command params env).2.
Proof.
  unfold sendCommand. destruct (client c); [|discriminate].
  destruct (jsonMarshal params) as [err|data]; [discriminate |].
  destruct (env_write env); [discriminate |]. cbn. intros _.
  eexists. left.
Qed.

End Commands.

(** C4: [Subscribe] sends the subscribe command for the path; when the
    command succeeds the registry is the former one with [path] bound to
    the callback; when it fails [Subscribe] returns that error and the
    registry is the former one. *)
Theorem Subscribe_records_on_success `{E : Extern} (c : Client) (path : Path)
    (callback : CallbackFunc) (env : SendEnv) :
  let sent :=
    sendCommand c feedbackSusbscribe (ParamsMap (toSubQuery path)) env in
  let sub := Subscribe c path callback env in
  sub.2 = sent.2 /\
  (forall msg, WriteMessage msg ∈ sub.2 ->
     req_method msg = "xFeedback/Subscribe" /\
     jsonMarshal (ParamsMap {[ "Query" := Fields path ]})
       = inr (req_params msg)) /\
  match sub.1.2 with
  | Ok handle =>
    (exists v, sent.1.2 = Ok v) /\
    (exists msg, WriteMessage msg ∈ sub.2) /\
    handle = path /\
    callbacks sub.1.1 = <[path := callback]> (callbacks c)
  | Err e => sent.1.2 = Err e /\ callbacks sub.1.1 = callbacks c
  | Panic _ => False
  end.
Proof.
  intros sent sub.
  pose proof (sendCommand_callbacks c feedbackSusbscribe
                (ParamsMap (toSubQuery path)) env) as Hcb.
  pose proof (fun msg => sendCommand_frame c feedbackSusbscribe
                (ParamsMap (toSubQuery path)) env msg) as Hfr.
  pose proof (fun v => sendCommand_Ok_written c feedbackSusbscribe
                (ParamsMap (toSubQuery path)) env v) as Hw.
  pose proof (fun r => sendCommand_no_panic c feedbackSusbscribe
                (ParamsMap (toSubQuery path)) env r) as Hp.
  fold sent in Hcb, Hfr, Hw, Hp.
  assert (Hsub : sub = match sent.1.2 with
                       | Err e => (sent.1.1, Err e, sent.2)
                       | Panic p => (sent.1.1, Panic p, sent.2)
                       | Ok _ =>
                         (set_callbacks (<[path := callback]> (callbacks sent.1.1))
                            sent.1.1, Ok path, sent.2)
                       end).
  { subst sub. unfold Subscribe. fold sent.
    destruct sent as [[c1 r1] eff1]. cbn. destruct r1; reflexivity. }
  rewrite Hsub. clear Hsub sub.
  destruct sent as [[c1 r1] eff1]. cbn in *.
  destruct r1 as [v|e|p]; cbn.
  - split; [reflexivity |]. split; [intros msg Hm; apply (Hfr msg Hm) |].
    split; [eauto |]. split; [eauto |]. split; [reflexivity |].
    now rewrite Hcb.
  - split; [reflexivity |]. split; [intros msg Hm; apply (Hfr msg Hm) |].
    split; [reflexivity | exact Hcb].
  - now destruct (Hp p).
Qed.

Example Subscribe_write_fails :
  let sub := Subscribe connected "Status Audio" (Some 3%nat) writeFails in
  sub.1.2 = Err (Wrap "write message" (LibError "broken pipe")) /\
  callbacks sub.1.1 = callbacks connected.
Proof. split; reflexivity. Qed.

(** *** One callback per path *)

Lemma filter_none {A : Type} (P : A -> Prop) `{forall x, Decision (P x)}
    (l : list A) :
  (forall x, x ∈ l -> ~ P x) -> filter P l = [].
Proof.
  induction l as [|a l IH]; intros Hl; [reflexivity |].
  rewrite filter_cons_False by (apply Hl; left).
  apply IH. intros x Hx. apply Hl. now right.
Qed.

Lemma filter_key_unique {V : Type} (l : list (Path * V)) (k : Path) (x : V) :
  NoDup (l.*1) -> (k, x) ∈ l ->
  filter (fun kv => kv.1 = k) l = [(k, x)].
Proof.
  induction l as [|[k' x'] l IH]; cbn [fmap list_fmap fst].
  - intros _ H. now apply elem_of_nil in H.
  - intros Hnd Hin. apply NoDup_cons in Hnd as [Hk' Hnd].
    apply elem_of_cons in Hin as [[= <- <-] | Hin].
    + rewrite filter_cons_True by reflexivity. f_equal.
      apply filter_none.
      intros [k2 x2] H2 Hk2. cbn in Hk2. subst k2.
      apply Hk'. apply list_elem_of_fmap. now exists (k, x2).
    + rewrite filter_cons_False; [now apply IH |].
      cbn. intros ->. apply Hk'. apply list_elem_of_fmap. now exists (k, x).
Qed.

Lemma entriesAt_lookup (c : Client) (path : Path) (cb : CallbackFunc) :
  callbacks c !! path = Some cb -> entriesAt path c = [(path, cb)].
Proof.
  intros Hl. unfold entriesAt. apply filter_key_unique.
  - apply NoDup_fst_map_to_list.
  - now apply elem_of_map_to_list.
Qed.

Lemma onePerPath_always (c : Client) : onePerPath c.
Proof.
  intros path. destruct (callbacks c !! path) as [cb|] eqn:Hl.
  - now rewrite (entriesAt_lookup c path cb Hl).
  - unfold entriesAt.
    replace (filter _ _) with (@nil (Path * CallbackFunc)); [cbn; lia |].
    symmetry. apply filter_none.
    intros [k x] Hin Hk. cbn in Hk. subst k.
    apply elem_of_map_to_list in Hin. congruence.
Qed.

Lemma Subscribe_Ok_callbacks `{E : Extern} (c : Client) (path : Path)
    (callback : CallbackFunc) (env : SendEnv) :
  isOk (Subscribe c path callback env).1.2 ->
  callbacks (Subscribe c path callback env).1.1
    = <[path := callback]> (callbacks c).
Proof.
  intros [h Hh].
  pose proof (sendCommand_callbacks c feedbackSusbscribe
                (ParamsMap (toSubQuery path)) env) as Hcb.
  revert Hh. unfold Subscribe.
  destruct (sendCommand _ _ _ _) as [[c1 r1] eff1]. cbn in Hcb.
  destruct r1; cbn; [|discriminate..]. intros _. now rewrite Hcb.
Qed.

(** C10: the registry holds at most one callback for each path.  When two
    calls of [Subscribe] with the same path succeed one after the other,
    the second callback takes the place of the first: the registry keeps
    its size and holds, under that path, the second callback alone; the
    other paths keep their callbacks.  [Subscribe], the cancel function
    and [ConnectContext] all leave a registry with at most one callback for
    each path. *)
Theorem Subscribe_same_path_replaces `{E : Extern} (c : Client) (path : Path)
    (cb1 cb2 : CallbackFunc) (env1 env2 : SendEnv) :
  let s1 := Subscribe c path cb1 env1 in
  let s2 := Subscribe s1.1.1 path cb2 env2 in
  isOk s1.1.2 -> isOk s2.1.2 ->
  callbacks s1.1.1 !! path = Some cb1 /\
  callbacks s2.1.1 !! path = Some cb2 /\
  entriesAt path s2.1.1 = [(path, cb2)] /\
  size (callbacks s2.1.1) = size (callbacks s1.1.1) /\
  (forall other, other <> path ->
     callbacks s2.1.1 !! other = callbacks s1.1.1 !! other) /\
  onePerPath s1.1.1 /\ onePerPath s2.1.1 /\
  (forall c' p env, onePerPath (cancelFunc c' p env).1.1) /\
  (forall c' dial bodyErr, onePerPath (ConnectContext c' dial bodyErr).1.1).
Proof.
  intros s1 s2 H1 H2.
  pose proof (Subscribe_Ok_callbacks c path cb1 env1 H1) as E1.
  pose proof (Subscribe_Ok_callbacks s1.1.1 path cb2 env2 H2) as E2.
  fold s1 in E1. fold s2 in E2.
  assert (L1 : callbacks s1.1.1 !! path = Some cb1)
    by (rewrite E1; apply lookup_insert_eq).
  assert (L2 : callbacks s2.1.1 !! path = Some cb2)
    by (rewrite E2; apply lookup_insert_eq).
  split; [exact L1 |]. split; [exact L2 |].
  split; [now apply entriesAt_lookup |].
  split; [rewrite E2; now apply map_size_insert_Some |].
  split; [intros other Ho; rewrite E2; now apply lookup_insert_ne |].
  repeat split; intros; apply onePerPath_always.
Qed.

Lemma Subscribe_same_path_replaces_witness :
  let s1 := Subscribe connected "Status Audio" (Some 3%nat) accepted in
  let s2 := Subscribe s1.1.1 "Status Audio" (Some 5%nat) accepted in
  isOk s1.1.2 /\ isOk s2.1.2 /\
  entriesAt "Status Audio" s2.1.1 = [("Status Audio", Some 5%nat)].
Proof.
  intros s1 s2.
  assert (H1 : isOk s1.1.2) by (eexists; reflexivity).
  assert (H2 : isOk s2.1.2) by (eexists; reflexivity).
  split; [exact H1 |]. split; [exact H2 |].
  exact (proj1 (proj2 (proj2
    (Subscribe_same_path_replaces (E := stubExtern) connected "Status Audio"
       (Some 3%nat) (Some 5%nat) accepted accepted H1 H2)))).
Defined.

(** *** Sequence ids *)

Lemma maxExact_pos : (0 < maxExact)%Z.
Proof. reflexivity. Qed.

Lemma float64_inc_exact (x : float64) :
  (x < maxExact)%Z -> float64_inc x = (x + 1)%Z.
Proof.
  intros Hx. unfold float64_inc.
  destruct (Z.ltb_spec x maxExact); [reflexivity | lia].
Qed.

Lemma float64_inc_stuck : float64_inc maxExact = maxExact.
Proof. unfold float64_inc. now rewrite Z.ltb_irrefl. Qed.

Section SequenceIds.
Context `{E : Extern}.

Lemma assignedIds_cons (c : Client) command params env rest :
  assignedIds c ((command, params, env) :: rest) =
  seq (sendCommand c command params env).1.1
    :: assignedIds (sendCommand c command params env).1.1 rest.
Proof.
  cbn [assignedIds].
  now destruct (sendCommand c command params env) as [[c' r] eff].
Qed.

Lemma afterCalls_cons (c : Client) command params env rest :
  afterCalls c ((command, params, env) :: rest) =
  afterCalls (sendCommand c command params env).1.1 rest.
Proof.
  cbn [afterCalls].
  now destruct (sendCommand c command params env) as [[c' r] eff].
Qed.

Lemma assignedIds_bounds (calls : list (Command * Params * SendEnv)) :
  forall c : Client,
    client c <> None ->
    (seq c + Z.of_nat (length calls) <= maxExact)%Z ->
    StronglySorted Z.lt (assignedIds c calls) /\
    Forall (fun i => seq c < i <= seq c + Z.of_nat (length calls))%Z
      (assignedIds c calls).
Proof.
  induction calls as [|[[command params] env] rest IH]; intros c Hc Hb.
  - split; constructor.
  - rewrite assignedIds_cons.
    set (c' := (sendCommand c command params env).1.1).
    assert (Hseq : seq c' = (seq c + 1)%Z).
    { unfold c'. rewrite sendCommand_seq by exact Hc.
      apply float64_inc_exact. cbn [length] in Hb. lia. }
    assert (Hc' : client c' <> None)
      by (unfold c'; now rewrite sendCommand_client).
    destruct (IH c' Hc') as [Hs Hf]; [cbn [length] in Hb; lia |].
    split.
    + constructor; [exact Hs |].
      eapply Forall_impl; [exact Hf |]. cbn. intros i Hi. lia.
    + constructor; [cbn [length]; lia |].
      eapply Forall_impl; [exact Hf |]. cbn [length]. intros i Hi. cbn beta in *. lia.
Qed.

Lemma sorted_lt_NoDup (l : list Z) : StronglySorted Z.lt l -> NoDup l.
Proof.
  induction 1 as [|x l _ IH Hx]; constructor; [|exact IH].
  intros Hin. rewrite Forall_forall in Hx. specialize (Hx x Hin). lia.
Qed.

Lemma afterCalls_seq (calls : list (Command * Params * SendEnv)) :
  forall c : Client,
    client c <> None ->
    (seq c + Z.of_nat (length calls) <= maxExact)%Z ->
    seq (afterCalls c calls) = (seq c + Z.of_nat (length calls))%Z /\
    client (afterCalls c calls) = client c.
Proof.
  induction calls as [|[[command params] env] rest IH]; intros c Hc Hb.
  - cbn [afterCalls length]. split; [lia | reflexivity].
  - rewrite afterCalls_cons.
    set (c' := (sendCommand c command params env).1.1).
    assert (Hseq : seq c' = (seq c + 1)%Z).
    { unfold c'. rewrite sendCommand_seq by exact Hc.
      apply float64_inc_exact. cbn [length] in Hb. lia. }
    assert (Hc' : client c' = client c)
      by (unfold c'; apply sendCommand_client).
    destruct (IH c') as [Hs Hcl]; [congruence | cbn [length] in Hb; lia |].
    split; [rewrite Hs; cbn [length]; lia | congruence].
Qed.

Lemma assignedIds_two (c : Client) (call1 call2 : Command * Params * SendEnv) :
  client c <> None ->
  assignedIds c [call1; call2] =
  [float64_inc (seq c); float64_inc (float64_inc (seq c))].
Proof.
  intros Hc. destruct call1 as [[m1 p1] e1], call2 as [[m2 p2] e2].
  rewrite !assignedIds_cons. cbn [assignedIds].
  assert (Hc' : client (sendCommand c m1 p1 e1).1.1 <> None)
    by now rewrite sendCommand_client.
  rewrite (sendCommand_seq _ m2 p2 e2 Hc'), (sendCommand_seq c m1 p1 e1 Hc).
  reflexivity.
Qed.

End SequenceIds.

(** C3 as amended: while a connected client's counter stays within the
    whole numbers that [float64] holds exactly (from [0] up to [2^53]), the
    sequence ids assigned to successive invocations are strictly
    increasing in issuance order, pairwise distinct, larger than every id
    assigned before, and the frames written carry them. *)
Theorem assignedIds_increasing `{E : Extern} (c : Client)
    (calls : list (Command * Params * SendEnv)) :
  client c <> None ->
  (0 <= seq c)%Z ->
  (seq c + Z.of_nat (length calls) <= maxExact)%Z ->
  StronglySorted Z.lt (assignedIds c calls) /\
  NoDup (assignedIds c calls) /\
  Forall (fun i => seq c < i)%Z (assignedIds c calls) /\
  length (assignedIds c calls) = length calls /\
  (forall command params env msg,
     WriteMessage msg ∈ (sendCommand c command params env).2 ->
     req_id msg = seq (sendCommand c command params env).1.1).
Proof.
  intros Hc _ Hb.
  destruct (assignedIds_bounds calls c Hc Hb) as [Hs Hf].
  split; [exact Hs |]. split; [now apply sorted_lt_NoDup |].
  split; [eapply Forall_impl; [exact Hf |]; cbn; intros; lia |].
  split.
  - clear. revert c.
    induction calls as [|[[command params] env] rest IH]; intros c;
      [reflexivity |].
    rewrite assignedIds_cons. cbn [length]. now rewrite IH.
  - intros command params env msg Hm.
    now destruct (sendCommand_frame c command params env msg Hm).
Qed.

Lemma assignedIds_increasing_witness :
  client connected <> None /\
  assignedIds connected [muteCall; muteCall; muteCall] = [1; 2; 3]%Z /\
  StronglySorted Z.lt (assignedIds connected [muteCall; muteCall; muteCall]).
Proof.
  assert (Hc : client connected <> None) by discriminate.
  split; [exact Hc |]. split; [reflexivity |].
  apply (assignedIds_increasing (E := stubExtern) connected
           [muteCall; muteCall; muteCall] Hc).
  - vm_compute. discriminate.
  - vm_compute. discriminate.
Defined.

(** C3 as stated fails: after [2^53] invocations the counter of a
    connected client holds [2^53], and the next two invocations are both
    assigned the id [2^53]. *)
Lemma seq_id_reused :
  exists calls : list (Command * Params * SendEnv),
    let c := afterCalls connected calls in
    Z.of_nat (length calls) = maxExact /\
    client c <> None /\
    seq c = maxExact /\
    assignedIds c [muteCall; muteCall] = [maxExact; maxExact] /\
    ~ StronglySorted Z.lt (assignedIds c [muteCall; muteCall]) /\
    ~ NoDup (assignedIds c [muteCall; muteCall]).
Proof.
  exists (repeat muteCall (Z.to_nat maxExact)). intros c.
  assert (Hlen : Z.of_nat (length (repeat muteCall (Z.to_nat maxExact)))
                 = maxExact).
  { rewrite repeat_length. apply Z2Nat.id. pose proof maxExact_pos. lia. }
  destruct (afterCalls_seq (repeat muteCall (Z.to_nat maxExact)) connected)
    as [Hseq Hcl]; [discriminate | rewrite Hlen; change (seq connected) with 0%Z; lia |].
  fold c in Hseq, Hcl. rewrite Hlen in Hseq.
  change (seq connected) with 0%Z in Hseq. rewrite Z.add_0_l in Hseq.
  assert (Hc : client c <> None) by (rewrite Hcl; discriminate).
  assert (Hids : assignedIds c [muteCall; muteCall] = [maxExact; maxExact])
    by (rewrite (assignedIds_two c _ _ Hc), Hseq, !float64_inc_stuck;
        reflexivity).
  split; [exact Hlen |]. split; [exact Hc |]. split; [exact Hseq |].
  split; [exact Hids |]. rewrite Hids. split.
  - intros Hs. inversion Hs as [|? ? _ Hx]; subst.
    inversion Hx as [|? ? Hlt _]; subst. lia.
  - intros Hn. apply NoDup_cons in Hn as [Hn _]. apply Hn. left.
Qed.

(** ** Further properties of the run loop *)

Section RunLoopMore.
Context `{E : Extern}.






End RunLoopMore.







Lemma runFrames_unmatched_notification `{E : Extern} (c : Client)
    (inb : Inbound) (rest : list Inbound) (method params : string)
    (event : Node) :
  inb_read inb = ReadMsg (TypeNotificationMsg method params) ->
  inb_range inb ≡ₚ map_to_list (callbacks c) ->
  ojParseString params = inr event ->
  (forall k v, callbacks c !! k = Some v -> queryResult k event = inr []) ->
  runFrames c (inb :: rest) = (Returned ErrMissingData, [], rest).
Proof.
  intros Hread Hperm Hparse Hall.
  cbn [runFrames]. unfold runLoop. rewrite Hread.
  unfold runCallbacks. rewrite Hparse.
  rewrite <- (app_nil_r (inb_range inb)), rangeCallbacks_skip; [reflexivity |].
  apply Forall_forall. intros [k v] Hin. unfold noResult. cbn.
  apply (Hall k v). apply elem_of_map_to_list. now rewrite <- Hperm.
Qed.

(** X4: a notification that finds no data under any subscription ends
    [Run]: for a connected client, when the payload parses and the query of
    every registered path gives the empty result (so too when nothing is
    registered), [Run] returns [ErrMissingData], calls no callback, and
    leaves the frames that follow unread. *)
Theorem Run_unmatched_notification `{E : Extern} (c : Client) (inb : Inbound)
    (rest : list Inbound) (method params : string) (event : Node) :
  client c <> None ->
  inb_read inb = ReadMsg (TypeNotificationMsg method params) ->
  inb_range inb ≡ₚ map_to_list (callbacks c) ->
  ojParseString params = inr event ->
  (forall k v, callbacks c !! k = Some v -> queryResult k event = inr []) ->
  Run c (inb :: rest) = (Returned ErrMissingData, [], rest).
Proof.
  intros Hc Hread Hperm Hparse Hall.
  unfold Run. destruct (client c); [|congruence].
  now apply (runFrames_unmatched_notification c inb rest method params event).
Qed.

Lemma Run_unmatched_notification_witness :
  client subscribed <> None /\
  Run subscribed [eventNotification; replyTo 1]
    = (Returned ErrMissingData, [], [replyTo 1]).
Proof.
  split; [discriminate |].
  apply (Run_unmatched_notification (E := stubExtern) subscribed
           eventNotification [replyTo 1] "xFeedback/Event" "Event Shutdown"
           (chain ["Event"; "Shutdown"])).
  - discriminate.
  - reflexivity.
  - vm_compute. reflexivity.
  - reflexivity.
  - intros k v Hl. unfold subscribed, set_callbacks in Hl. cbn in Hl.
    apply lookup_insert_Some in Hl as [[<- _] | [_ Hl]];
      [reflexivity | now rewrite lookup_empty in Hl].
Defined.

(** ** Further properties of [sendCommand] *)

Section SendMore.
Context `{E : Extern}.

Lemma sendCommand_table (c : Client) command params env :
  responseChans (sendCommand c command params env).1.1 = responseChans c \/
  responseChans (sendCommand c command params env).1.1
    = delete (float64_inc (seq c)) (responseChans c).
Proof.
  unfold sendCommand. destruct (client c); [|now left].
  destruct (jsonMarshal params); [now left |]. right.
  destruct (env_write env); cbn; apply delete_insert_eq.
Qed.

Lemma sendCommand_table_sent (c : Client) command params env data :
  client c <> None -> jsonMarshal params = inr data ->
  responseChans (sendCommand c command params env).1.1
    = delete (float64_inc (seq c)) (responseChans c).
Proof.
  intros Hc Hm. unfold sendCommand. destruct (client c); [|congruence].
  rewrite Hm. destruct (env_write env); cbn; apply delete_insert_eq.
Qed.

End SendMore.

(** X5: no call of [sendCommand] leaves an entry behind in the response
    table.  When the frame was encoded the entry of the id just assigned is
    gone once the call returns, whether the write failed, the device
    answered with an error, or the call succeeded; the entries under the
    other ids are as before.  Hence after any run of calls the table holds
    nothing it did not hold before, and a table that was empty is empty. *)
Theorem sendCommand_leaves_no_entry `{E : Extern} (c : Client)
    (calls : list (Command * Params * SendEnv)) :
  (forall command params env k,
     k <> float64_inc (seq c) ->
     responseChans (sendCommand c command params env).1.1 !! k
       = responseChans c !! k) /\
  (forall command params env data,
     client c <> None -> jsonMarshal params = inr data ->
     responseChans (sendCommand c command params env).1.1
       !! seq (sendCommand c command params env).1.1 = None) /\
  responseChans (afterCalls c calls) ⊆ responseChans c /\
  (responseChans c = ∅ -> responseChans (afterCalls c calls) = ∅).
Proof.
  split; [|split].
  - intros command params env k Hk.
    destruct (sendCommand_table c command params env) as [-> | ->];
      [reflexivity | now apply lookup_delete_ne].
  - intros command params env data Hc Hm.
    rewrite (sendCommand_table_sent c command params env data Hc Hm).
    rewrite (sendCommand_seq c command params env Hc).
    apply lookup_delete_eq.
  - assert (Hsub : forall calls c,
              responseChans (afterCalls c calls) ⊆ responseChans c).
    { clear. intros calls.
      induction calls as [|[[command params] env] rest IH]; intros c;
        [reflexivity |].
      rewrite afterCalls_cons. etrans; [apply IH |].
      destruct (sendCommand_table c command params env) as [-> | ->];
        [reflexivity | apply delete_subseteq]. }
    split; [apply Hsub |].
    intros Hempty. apply map_empty. intros k.
    pose proof (Hsub calls c) as Hs. rewrite Hempty in Hs.
    rewrite map_subseteq_spec in Hs.
    destruct (responseChans (afterCalls c calls) !! k) as [ch|] eqn:Hk;
      [|reflexivity].
    specialize (Hs k ch Hk). now rewrite lookup_empty in Hs.
Qed.

(** X6: [sendCommand] gives a value exactly when the client is connected,
    the parameters were encoded, the frame was written, and what came
    back on the channel is a map or a number; an error that comes back on
    the channel is returned as it is, and any other kind of value gives an
    error that wraps [ErrUnknownResponse]. *)
Theorem sendCommand_Ok_iff `{E : Extern} (c : Client) (command : Command)
    (params : Params) (env : SendEnv) :
  (forall r,
     (sendCommand c command params env).1.2 = Ok r <->
     client c <> None /\ (exists data, jsonMarshal params = inr data) /\
     env_write env = None /\
     exists v, env_recv env = AnyValue v /\ r = AnyValue v /\
               dynType v <> TOther) /\
  (forall data,
     client c <> None -> jsonMarshal params = inr data ->
     env_write env = None ->
     (forall e, env_recv env = AnyError e ->
        (sendCommand c command params env).1.2 = Err e) /\
     (forall v, env_recv env = AnyValue v -> dynType v = TOther ->
        (sendCommand c command params env).1.2
          = Err (Wrap "receive" ErrUnknownResponse))).
Proof.
  unfold sendCommand. split.
  - intros r. destruct (client c) as [conn|].
    2:{ split; [discriminate | intros [H _]; congruence]. }
    destruct (jsonMarshal params) as [err|data].
    { split; [discriminate | intros (_ & [d Hd] & _); discriminate]. }
    destruct (env_write env) as [err|].
    { split; [discriminate | intros (_ & _ & Hw & _); discriminate]. }
    cbn. destruct (env_recv env) as [e|v].
    { split; [discriminate | intros (_ & _ & _ & v & Hv & _); discriminate]. }
    destruct (dynType v) eqn:Hd; split;
      try discriminate;
      try (intros [= <-]; repeat split; eauto; try discriminate;
           eexists; repeat split; eauto; congruence);
      intros (_ & _ & _ & v' & [= <-] & Hr & Hne); congruence.
  - intros data Hc Hm Hw. destruct (client c); [|congruence].
    rewrite Hm, Hw. cbn. split.
    + now intros e ->.
    + now intros v -> ->.
Qed.

(** X7: a connected client uses up a sequence id at every call of
    [sendCommand], also when the parameters cannot be encoded: then the
    encoding error is returned, no frame is written and the response table
    is as before.  When they are encoded, one frame is written, with the
    new id, the command and the encoded parameters, whether or not the
    write succeeds.  A client that is not connected writes nothing and
    keeps its counter. *)
Theorem sendCommand_written `{E : Extern} (c : Client) (command : Command)
    (params : Params) (env : SendEnv) :
  let r := sendCommand c command params env in
  match client c, jsonMarshal params with
  | Some _, inr data =>
    seq r.1.1 = float64_inc (seq c) /\
    written r.2 = [NewJsonRpcRequest (float64_inc (seq c)) command data]
  | Some _, inl err =>
    seq r.1.1 = float64_inc (seq c) /\ r.1.2 = Err err /\ r.2 = [] /\
    responseChans r.1.1 = responseChans c
  | None, _ => r = (c, Err ErrNotConnected, [])
  end.
Proof.
  unfold sendCommand. destruct (client c); [|reflexivity].
  destruct (jsonMarshal params); [repeat split |].
  destruct (env_write env); split; reflexivity.
Qed.

(** ** Further properties of the registry *)

Section RegistryMore.
Context `{E : Extern}.

Lemma cancelFunc_callbacks (c : Client) (path : Path) (env : SendEnv) :
  callbacks (cancelFunc c path env).1.1 = delete path (callbacks c).
Proof.
  unfold cancelFunc.
  pose proof (sendCommand_callbacks
                (set_callbacks (delete path (callbacks c)) c)
                feedbackUnsubscribe (ParamsMap (toSubQuery path)) env) as H.
  destruct (sendCommand _ _ _ _) as [[c1 r1] eff1]. exact H.
Qed.

(** The entries visited before a given key in an order of a map are filed
    under other keys. *)
Lemma range_split (m : gmap Path CallbackFunc)
    (entries : list (Path * CallbackFunc)) (k : Path) (v : CallbackFunc) :
  entries ≡ₚ map_to_list m -> m !! k = Some v ->
  exists pre post,
    entries = pre ++ (k, v) :: post /\
    Forall (fun kv => kv.1 <> k /\ m !! kv.1 = Some kv.2) pre.
Proof.
  intros Hperm Hk.
  assert (Hin : (k, v) ∈ entries)
    by (rewrite Hperm; now apply elem_of_map_to_list).
  apply list_elem_of_split in Hin as (pre & post & ->).
  exists pre, post. split; [reflexivity |].
  assert (Hnd : NoDup ((pre ++ (k, v) :: post).*1))
    by (rewrite Hperm; apply NoDup_fst_map_to_list).
  rewrite fmap_app, fmap_cons in Hnd. cbn [fst] in Hnd.
  apply NoDup_app in Hnd as (_ & Hdisj & _).
  apply Forall_forall. intros [k' v'] Hin'. cbn. split.
  - intros ->. apply (Hdisj k); [|left].
    apply list_elem_of_fmap. now exists (k, v').
  - apply elem_of_map_to_list. rewrite <- Hperm.
    apply elem_of_app. now left.
Qed.

End RegistryMore.

(** X8: the cancel function takes the path out of the registry whatever
    becomes of the unsubscribe command, even on a client that is not
    connected; what it returns is the error of that command, and the frame
    it writes, if any, is [xFeedback/Unsubscribe] with the segments of the
    path as its query. *)
Theorem cancelFunc_removes_entry `{E : Extern} (c : Client) (path : Path)
    (env : SendEnv) :
  let r := cancelFunc c path env in
  callbacks r.1.1 = delete path (callbacks c) /\
  callbacks r.1.1 !! path = None /\
  (forall other, other <> path ->
     callbacks r.1.1 !! other = callbacks c !! other) /\
  (client c = None -> r.1.2 = Err ErrNotConnected /\ r.2 = []) /\
  (forall msg, WriteMessage msg ∈ r.2 ->
     req_method msg = "xFeedback/Unsubscribe" /\
     jsonMarshal (ParamsMap {[ "Query" := Fields path ]})
       = inr (req_params msg)).
Proof.
  intros r. pose proof (cancelFunc_callbacks c path env) as Hcb.
  fold r in Hcb. rewrite Hcb.
  split; [reflexivity |]. split; [apply lookup_delete_eq |].
  split; [intros other Ho; now apply lookup_delete_ne |].
  subst r. unfold cancelFunc.
  set (c0 := set_callbacks (delete path (callbacks c)) c).
  pose proof (fun msg => sendCommand_frame c0 feedbackUnsubscribe
                (ParamsMap (toSubQuery path)) env msg) as Hfr.
  assert (Hnc : client c = None ->
                sendCommand c0 feedbackUnsubscribe
                  (ParamsMap (toSubQuery path)) env
                = (c0, Err ErrNotConnected, [])).
  { intros Hc. unfold sendCommand. subst c0. cbn. now rewrite Hc. }
  destruct (sendCommand c0 _ _ _) as [[c1 r1] eff1]. cbn in *. split.
  - intros Hc. specialize (Hnc Hc). now injection Hnc as _ -> ->.
  - intros msg Hm. now destruct (Hfr msg Hm) as (_ & ? & ?).
Qed.

(** X9: cancelling after a successful [Subscribe] leaves the registry
    without the path.  When the path was not registered before, the
    registry is back to what it was; when it was, the callback registered
    before is not brought back. *)
Theorem Subscribe_then_cancel `{E : Extern} (c : Client) (path : Path)
    (callback : CallbackFunc) (env1 env2 : SendEnv) :
  let s := Subscribe c path callback env1 in
  let r := cancelFunc s.1.1 path env2 in
  isOk s.1.2 ->
  callbacks r.1.1 = delete path (callbacks c) /\
  callbacks r.1.1 !! path = None /\
  (callbacks c !! path = None -> callbacks r.1.1 = callbacks c).
Proof.
  intros s r Hs.
  pose proof (Subscribe_Ok_callbacks c path callback env1 Hs) as Hcb.
  pose proof (cancelFunc_callbacks s.1.1 path env2) as Hcc.
  fold s in Hcb. fold r in Hcc. rewrite Hcc, Hcb, delete_insert_eq.
  split; [reflexivity |]. split; [apply lookup_delete_eq |].
  intros Hn. now apply delete_id.
Qed.

Lemma Subscribe_then_cancel_witness :
  let s := Subscribe subscribed "Status Audio" (Some 5%nat) accepted in
  let r := cancelFunc s.1.1 "Status Audio" accepted in
  isOk s.1.2 /\
  callbacks subscribed !! "Status Audio" = Some (Some 3%nat) /\
  callbacks r.1.1 !! "Status Audio" = None.
Proof.
  intros s r.
  assert (Hs : isOk s.1.2) by (eexists; reflexivity).
  split; [exact Hs |]. split; [reflexivity |].
  exact (proj1 (proj2 (Subscribe_then_cancel (E := stubExtern) subscribed
                         "Status Audio" (Some 5%nat) accepted accepted Hs))).
Defined.

(** X10: once a path is cancelled, a notification that has data under
    that path alone is no longer dispatched: in whatever order the registry
    is visited, dispatch fails with [ErrMissingData] and calls nothing. *)
Theorem cancelled_path_gets_MissingData `{E : Extern} (c : Client)
    (path : Path) (env : SendEnv) (entries : list (Path * CallbackFunc))
    (params : string) (event : Node) :
  entries ≡ₚ map_to_list (callbacks (cancelFunc c path env).1.1) ->
  ojParseString params = inr event ->
  (forall k v, k <> path -> callbacks c !! k = Some v ->
     queryResult k event = inr []) ->
  runCallbacks entries params = (Err ErrMissingData, []).
Proof.
  intros Hperm Hparse Hothers. rewrite cancelFunc_callbacks in Hperm.
  unfold runCallbacks. rewrite Hparse.
  rewrite <- (app_nil_r entries), rangeCallbacks_skip; [reflexivity |].
  apply Forall_forall. intros [k v] Hin. unfold noResult. cbn.
  rewrite Hperm in Hin. apply elem_of_map_to_list in Hin.
  apply lookup_delete_Some in Hin as [Hne Hl]. now apply (Hothers k v).
Qed.

Lemma cancelled_path_gets_MissingData_witness :
  @queryResult stubExtern "Status Audio" (chain ["Status"; "Audio"; "Volume"])
    = inr [chain ["Volume"]] /\
  @runCallbacks stubExtern [] "Status Audio Volume" = (Err ErrMissingData, []).
Proof.
  split; [reflexivity |].
  apply (cancelled_path_gets_MissingData (E := stubExtern) subscribed
           "Status Audio" accepted [] "Status Audio Volume"
           (chain ["Status"; "Audio"; "Volume"])).
  - vm_compute. reflexivity.
  - reflexivity.
  - intros k v Hne Hl. unfold subscribed, set_callbacks in Hl. cbn in Hl.
    apply lookup_insert_Some in Hl as [[<- _] | [_ Hl]];
      [congruence | now rewrite lookup_empty in Hl].
Defined.

(** X11: after a successful [Subscribe] with the function [f], a
    notification that has data under that path and under no other
    registered path is dispatched to [f], with the data found, in whatever
    order the registry is visited; no other callback is called. *)
Theorem subscribed_path_gets_callback `{E : Extern} (c : Client)
    (path : Path) (f : funcId) (env : SendEnv)
    (entries : list (Path * CallbackFunc)) (params : string) (event : Node)
    (r : list Node) :
  isOk (Subscribe c path (Some f) env).1.2 ->
  entries ≡ₚ map_to_list (callbacks (Subscribe c path (Some f) env).1.1) ->
  ojParseString params = inr event ->
  queryResult path event = inr r -> r <> [] ->
  (forall k v, k <> path -> callbacks c !! k = Some v ->
     queryResult k event = inr []) ->
  runCallbacks entries params = (Ok tt, [GoCallback f r]).
Proof.
  intros Hs Hperm Hparse Hq Hr Hothers.
  rewrite (Subscribe_Ok_callbacks c path (Some f) env Hs) in Hperm.
  destruct (range_split _ entries path (Some f) Hperm)
    as (pre & post & -> & Hpre); [apply lookup_insert_eq |].
  unfold runCallbacks. rewrite Hparse, rangeCallbacks_skip.
  - now rewrite (rangeCallbacks_hit _ _ _ _ _ Hq Hr).
  - eapply Forall_impl; [exact Hpre |]. intros [k v] [Hne Hl].
    cbn in Hne, Hl. unfold noResult. cbn.
    rewrite lookup_insert_ne in Hl by congruence. now apply (Hothers k v).
Qed.

Lemma subscribed_path_gets_callback_witness :
  let s := Subscribe connected "Status Audio" (Some 3%nat) accepted in
  isOk s.1.2 /\
  runCallbacks (map_to_list (callbacks s.1.1)) "Status Audio Volume"
    = (Ok tt, [GoCallback 3%nat [chain ["Volume"]]]).
Proof.
  intros s.
  assert (Hs : isOk s.1.2) by (eexists; reflexivity).
  split; [exact Hs |].
  apply (subscribed_path_gets_callback (E := stubExtern) connected
           "Status Audio" 3%nat accepted _ "Status Audio Volume"
           (chain ["Status"; "Audio"; "Volume"]) [chain ["Volume"]] Hs).
  - reflexivity.
  - reflexivity.
  - reflexivity.
  - discriminate.
  - intros k v _ Hl. unfold connected in Hl. cbn [callbacks] in Hl.
    now rewrite lookup_empty in Hl.
Defined.

(** X12: the registry is keyed by the text of the path, not by its
    segments.  Two paths that differ only in their white space have the
    same subscribe query and the same dot path, yet after a successful
    [Subscribe] with each of them the registry holds both, each with its
    own callback. *)
Theorem spacing_makes_two_entries `{E : Extern} (c : Client) (p q : Path)
    (cb1 cb2 : CallbackFunc) (env1 env2 : SendEnv) :
  let s1 := Subscribe c p cb1 env1 in
  let s2 := Subscribe s1.1.1 q cb2 env2 in
  p <> q -> Fields p = Fields q ->
  isOk s1.1.2 -> isOk s2.1.2 ->
  toSubQuery p = toSubQuery q /\ toJSONPath p = toJSONPath q /\
  callbacks s2.1.1 !! p = Some cb1 /\ callbacks s2.1.1 !! q = Some cb2.
Proof.
  intros s1 s2 Hne Hf H1 H2.
  pose proof (Subscribe_Ok_callbacks c p cb1 env1 H1) as E1.
  pose proof (Subscribe_Ok_callbacks s1.1.1 q cb2 env2 H2) as E2.
  fold s1 in E1. fold s2 in E2.
  split; [unfold toSubQuery; now rewrite Hf |].
  split; [unfold toJSONPath; now rewrite Hf |].
  rewrite E2, E1. split.
  - rewrite lookup_insert_ne by congruence. apply lookup_insert_eq.
  - apply lookup_insert_eq.
Qed.

Lemma spacing_makes_two_entries_witness :
  let s1 := Subscribe connected "Status Audio" (Some 3%nat) accepted in
  let s2 := Subscribe s1.1.1 "Status  Audio" (Some 5%nat) accepted in
  toJSONPath "Status Audio" = toJSONPath "Status  Audio" /\
  callbacks s2.1.1 !! "Status Audio" = Some (Some 3%nat) /\
  callbacks s2.1.1 !! "Status  Audio" = Some (Some 5%nat).
Proof.
  intros s1 s2.
  assert (Hne : "Status Audio" <> "Status  Audio") by discriminate.
  assert (Hf : Fields "Status Audio" = Fields "Status  Audio") by reflexivity.
  assert (H1 : isOk s1.1.2) by (eexists; reflexivity).
  assert (H2 : isOk s2.1.2) by (eexists; reflexivity).
  exact (proj2 (spacing_makes_two_entries (E := stubExtern) connected
                  "Status Audio" "Status  Audio" (Some 3%nat) (Some 5%nat)
                  accepted accepted Hne Hf H1 H2)).
Defined.

(** ** Connecting *)

(** X13: every call of [ConnectContext], also one that fails, leaves the
    client with an empty registry and an empty response table: the
    subscriptions made before are dropped.  The sequence counter is kept,
    so ids go on where they were; the credentials and the address are
    kept; a call that fails leaves the [client] field as it was. *)
Theorem ConnectContext_resets `{E : Extern} (c : Client)
    (dial : error + rpcClient) (bodyErr : option error) :
  let r := ConnectContext c dial bodyErr in
  callbacks r.1.1 = ∅ /\ responseChans r.1.1 = ∅ /\
  seq r.1.1 = seq c /\
  User r.1.1 = User c /\ Password r.1.1 = Password c /\ URL r.1.1 = URL c /\
  (forall e, r.1.2 = Err e -> client r.1.1 = client c /\ r.2 = []).
Proof.
  unfold ConnectContext. cbn.
  destruct (encCreds (User c) (Password c)) as [tok|e|p];
    [|repeat split; cbn; auto; discriminate..].
  destruct dial as [e|wsc]; [repeat split; cbn; auto |].
  destruct bodyErr as [e|]; repeat split; cbn; auto; discriminate.
Qed.

Lemma encCreds_cases (user password : string) :
  (user = "" \/ password = "") /\
    encCreds user password = Err ErrInvalidCredentials \/
  user <> "" /\ password <> "" /\ exists tok, encCreds user password = Ok tok.
Proof.
  unfold encCreds. destruct user as [|a u]; [left; split; auto |].
  destruct password as [|b p]; [left; split; auto |].
  right. repeat split; try discriminate. eauto.
Qed.

(** X14: [ConnectContext] succeeds exactly when user and password are not
    empty, the dial succeeds and the handshake response closes without
    error; the client then holds the new connection, and [OnConnectFunc],
    when set, is started.  With an empty user or password it fails with
    [ErrInvalidCredentials] wrapped by ["connect"], whatever the dial would
    give; a dial error comes back wrapped by ["dial"]. *)
Theorem ConnectContext_outcome `{E : Extern} (c : Client)
    (dial : error + rpcClient) (bodyErr : option error) :
  let r := ConnectContext c dial bodyErr in
  (r.1.2 = Ok tt <->
   User c <> "" /\ Password c <> "" /\ bodyErr = None /\
   exists wsc, dial = inr wsc) /\
  (forall wsc, r.1.2 = Ok tt -> dial = inr wsc ->
     client r.1.1 = Some wsc /\
     r.2 = match OnConnectFunc c with
           | Some f => [GoOnConnect f]
           | None => []
           end) /\
  (User c = "" \/ Password c = "" ->
   r.1.2 = Err (Wrap "connect" ErrInvalidCredentials)) /\
  (forall e, User c <> "" -> Password c <> "" -> dial = inl e ->
     r.1.2 = Err (Wrap "dial" e)).
Proof.
  unfold ConnectContext. cbn.
  destruct (encCreds_cases (User c) (Password c))
    as [[Hempty ->] | (Hu & Hp & tok & ->)]; cbn.
  - split; [split; [discriminate | tauto] |].
    split; [discriminate |]. split; [reflexivity | tauto].
  - destruct dial as [e|wsc]; [|destruct bodyErr as [e|]]; cbn.
    + split; [split; [discriminate | intros (_ & _ & _ & w & H); discriminate] |].
      split; [discriminate |]. split; [tauto |].
      now intros e' _ _ [= ->].
    + split; [split; [discriminate | intros (_ & _ & H & _); discriminate] |].
      split; [discriminate |]. split; [tauto | discriminate].
    + split; [split; [eauto 6 | reflexivity] |].
      split; [now intros w _ [= ->] |]. split; [tauto | discriminate].
Qed.

Lemma ConnectContext_inv `{E : Extern} (c : Client)
    (dial : error + rpcClient) (bodyErr : option error) :
  let r := ConnectContext c dial bodyErr in
  callbacks r.1.1 = ∅ /\
  (forall e, r.1.2 = Err e -> r.2 = []) /\
  (r.1.2 = Ok tt -> client r.1.1 <> None).
Proof.
  unfold ConnectContext. cbn.
  destruct (encCreds (User c) (Password c)) as [tok|e|p]; cbn;
    [|repeat split; auto; discriminate..].
  destruct dial as [e|wsc]; [repeat split; auto; discriminate |].
  destruct bodyErr as [e|]; repeat split; auto; discriminate.
Qed.

(** X15: [ConnectAndRun] reads no frame when the connection cannot be
    made and returns the error of [Connect].  When the connection is made,
    the loop runs on a client whose registry is empty: if the first frame
    to arrive is a notification whose payload parses, the loop ends at once
    with [ErrMissingData] and the frames that follow stay unread. *)
Theorem ConnectAndRun_spec `{E : Extern} (c : Client)
    (dial : error + rpcClient) (bodyErr : option error)
    (inbound : list Inbound) :
  (forall e, (ConnectContext c dial bodyErr).1.2 = Err e ->
     (ConnectAndRun c dial bodyErr inbound).2 = (Returned e, [], inbound)) /\
  (forall inb rest method params event,
     (ConnectContext c dial bodyErr).1.2 = Ok tt ->
     inbound = inb :: rest ->
     inb_read inb = ReadMsg (TypeNotificationMsg method params) ->
     inb_range inb = [] ->
     ojParseString params = inr event ->
     (ConnectAndRun c dial bodyErr inbound).2
       = (Returned ErrMissingData, (ConnectContext c dial bodyErr).2, rest)).
Proof.
  destruct (ConnectContext_inv c dial bodyErr) as (Hcb & Herr & Hcl).
  unfold ConnectAndRun, Connect.
  destruct (ConnectContext c dial bodyErr) as [[c1 r1] eff1]. cbn in *.
  split.
  - intros e ->. now rewrite (Herr e eq_refl).
  - intros inb rest method params event -> -> Hread Hrange Hparse.
    specialize (Hcl eq_refl). unfold Run.
    destruct (client c1); [|congruence].
    rewrite (runFrames_unmatched_notification c1 inb rest method params event);
      [now rewrite app_nil_r | exact Hread | | exact Hparse |].
    + now rewrite Hrange, Hcb, map_to_list_empty.
    + intros k v Hl. now rewrite Hcb, lookup_empty in Hl.
Qed.

(** ** Further properties of the path model and of the credentials *)

(** X16: two paths whose segments hold no dot have the same dot path only
    when they have the same segments, in the same order.  Without that
    condition this fails: the path ["a.b"], of one segment, and the path
    ["a b"], of two, have the same dot path. *)
Theorem toJSONPath_same_segments (p q : Path) :
  validPath p -> validPath q ->
  toJSONPath p = toJSONPath q ->
  Fields p = Fields q.
Proof.
  intros Hp Hq Heq.
  pose proof (jsonPathSegments_dotted (Fields p) Hp
                (Fields_nonempty_segments p)) as Sp.
  pose proof (jsonPathSegments_dotted (Fields q) Hq
                (Fields_nonempty_segments q)) as Sq.
  rewrite <- toJSONPath_dotted in Sp, Sq. congruence.
Qed.

Lemma toJSONPath_same_segments_witness :
  toJSONPath "Status Audio" = toJSONPath " Status   Audio" /\
  Fields "Status Audio" = Fields " Status   Audio".
Proof.
  split; [reflexivity |].
  apply toJSONPath_same_segments.
  - unfold validPath. vm_compute. repeat constructor.
  - unfold validPath. vm_compute. repeat constructor.
  - reflexivity.
Defined.

Example toJSONPath_dot_in_segment :
  toJSONPath "a.b" = toJSONPath "a b" /\ Fields "a.b" <> Fields "a b".
Proof. split; [reflexivity | discriminate]. Qed.

Lemma length_sapp (a b : string) :
  String.length (a +:+ b) = String.length a + String.length b.
Proof.
  induction a as [|x a IH]; [reflexivity |].
  rewrite sapp_cons. cbn [String.length]. now rewrite IH.
Qed.

Lemma get_In (s : string) (n : nat) (c : ascii) :
  String.get n s = Some c -> In c (chars s).
Proof.
  revert n. induction s as [|x s IH]; intros n; [discriminate |].
  destruct n as [|n]; cbn.
  - intros [= ->]. now left.
  - intros H. right. exact (IH n H).
Qed.

Lemma get_lt (s : string) (n : nat) :
  n < String.length s -> exists c, String.get n s = Some c.
Proof.
  revert n. induction s as [|x s IH]; intros n; cbn; [lia |].
  destruct n as [|n]; [eauto |]. intros H. apply IH. lia.
Qed.

Lemma encAt_URL_In (i : N) : (i < 64)%N -> In (encAt RawURLEncoding i) (chars encodeURL).
Proof.
  intros Hi. unfold encAt. cbn [encode RawURLEncoding].
  destruct (get_lt encodeURL (N.to_nat i)) as [c Hc].
  { change (String.length encodeURL) with 64. lia. }
  rewrite Hc. now apply get_In in Hc.
Qed.

Lemma EncodeToString_Raw_length (src : string) :
  String.length (EncodeToString RawURLEncoding src)
    = (4 * String.length src + 2) / 3.
Proof.
  induction src as [|a|a b|a b c s IH] using string_ind3; try reflexivity.
  cbn [EncodeToString String.length]. rewrite IH.
  replace (4 * S (S (S (String.length s))) + 2)
    with (4 * String.length s + 2 + 4 * 3) by lia.
  rewrite Nat.div_add by discriminate. lia.
Qed.

Lemma EncodeToString_Raw_alphabet (src : string) :
  Forall (fun ch => In ch (chars encodeURL))
    (chars (EncodeToString RawURLEncoding src)).
Proof.
  induction src as [|a|a b|a b c s IH] using string_ind3;
    cbn [EncodeToString]; unfold chars in *; cbn [list_ascii_of_string];
    repeat (constructor; [apply encAt_URL_In, sextet_lt |]);
    try constructor.
  exact IH.
Qed.

(** X17: the token that [encCreds] returns for a user of [n] bytes and a
    password of [m] bytes is [5 + ceil(4 (n + 1 + m) / 3)] bytes long, and
    after its prefix ["auth-"] it is made of letters, digits, [-] and [_]
    only. *)
Theorem encCreds_token_shape (user password tok : string) :
  encCreds user password = Ok tok ->
  String.length tok
    = 5 + (4 * (String.length user + 1 + String.length password) + 2) / 3 /\
  exists body,
    tok = "auth-" +:+ body /\
    Forall (fun ch => In ch (chars encodeURL)) (chars body).
Proof.
  unfold encCreds.
  destruct (String.eqb user "" || String.eqb password ""); [discriminate |].
  intros [= <-]. rewrite Replace_StdEncoding. split.
  - rewrite length_sapp, EncodeToString_Raw_length, !length_sapp.
    change (String.length credPrefix) with 5.
    change (String.length ":") with 1.
    now rewrite Nat.add_assoc.
  - eexists. split; [reflexivity |]. apply EncodeToString_Raw_alphabet.
Qed.

Lemma encCreds_token_shape_witness :
  encCreds "bob" "secret" = Ok "auth-Ym9iOnNlY3JldA" /\
  String.length "auth-Ym9iOnNlY3JldA" = 19.
Proof.
  split; [reflexivity |].
  exact (proj1 (encCreds_token_shape "bob" "secret" "auth-Ym9iOnNlY3JldA"
                  eq_refl)).
Defined.

Lemma encCreds_nonempty (user password : string) :
  user <> "" -> password <> "" ->
  encCreds user password =
    Ok (credPrefix +:+
        Replace (EncodeToString StdEncoding (user +:+ ":" +:+ password))).
Proof.
  intros Hu Hp. unfold encCreds.
  destruct user; [congruence |]. destruct password; [congruence |].
  reflexivity.
Qed.

(** X18: the token does not tell where the user ends and the password
    begins when the user holds a colon: the user ["u:p"] with the password
    ["q"] and the user ["u"] with the password ["p:q"] get the same
    token. *)
Theorem encCreds_colon_in_user (u p q : string) :
  u <> "" -> q <> "" ->
  encCreds (u +:+ ":" +:+ p) q = encCreds u (p +:+ ":" +:+ q) /\
  exists tok, encCreds u (p +:+ ":" +:+ q) = Ok tok.
Proof.
  intros Hu Hq.
  assert (H1 : u +:+ ":" +:+ p <> "") by (destruct u; [congruence | discriminate]).
  assert (H2 : p +:+ ":" +:+ q <> "") by (destruct p; discriminate).
  rewrite (encCreds_nonempty _ _ H1 Hq), (encCreds_nonempty _ _ Hu H2).
  rewrite !sapp_assoc. split; [reflexivity | eauto].
Qed.

Lemma encCreds_colon_in_user_witness :
  encCreds "bob:se" "cret" = encCreds "bob" "se:cret".
Proof.
  refine (proj1 (encCreds_colon_in_user "bob" "se" "cret" _ _)); discriminate.
Defined.

(** ** The arguments of [TextInput] *)

Lemma provided_keeps (key : string) (v : TextInputOption)
    (args : gmap string ArgValue) :
  provided v -> key = "FeedbackId" \/ key = "Text" ->
  v args !! key = args !! key.
Proof.
  intros Hv Hk. destruct Hv;
    unfold WithDuration, WithInputText, WithInputType,
      WithInputKeyboardHidden, WithPlaceholderText, WithSubmitText, WithTitle;
    apply lookup_insert_ne; destruct Hk as [-> | ->]; discriminate.
Qed.

Lemma fold_provided_keeps (key : string) (opts : list TextInputOption) :
  Forall provided opts -> key = "FeedbackId" \/ key = "Text" ->
  forall args,
    fold_left (fun args v => v args) opts args !! key = args !! key.
Proof.
  intros Hopts Hk. induction Hopts as [|v opts Hv _ IH]; intros args;
    [reflexivity |].
  cbn [fold_left]. rewrite IH. now apply provided_keeps.
Qed.

Lemma provided_writes (o : TextInputOption) :
  provided o ->
  exists key v, writes o key v /\ key <> "FeedbackId" /\ key <> "Text".
Proof.
  intros []; eexists _, _; (split; [intros args; reflexivity |]);
    split; discriminate.
Qed.

Lemma writes_lookup (o : TextInputOption) (key : string) (v : ArgValue)
    (args : gmap string ArgValue) :
  writes o key v -> o args !! key = Some v.
Proof. intros H. rewrite H. apply lookup_insert_eq. Qed.

(** A provided option that is not for the entry [key] leaves that entry
    as it is. *)
Lemma provided_other_entry (o : TextInputOption) (key : string)
    (args : gmap string ArgValue) :
  provided o -> (forall v, ~ writes o key v) ->
  o args !! key = args !! key.
Proof.
  intros Ho Hn. destruct (provided_writes o Ho) as (key' & v' & Hw & _).
  rewrite Hw. apply lookup_insert_ne. intros ->. exact (Hn v' Hw).
Qed.

Lemma fold_other_entry (key : string) (opts : list TextInputOption) :
  Forall provided opts ->
  Forall (fun o => forall v, ~ writes o key v) opts ->
  forall args,
    fold_left (fun args v => v args) opts args !! key = args !! key.
Proof.
  intros Hopts Hn. induction Hopts as [|o opts Ho _ IH]; intros args;
    [reflexivity |].
  apply Forall_cons in Hn as [Hno Hn].
  cbn [fold_left]. rewrite (IH Hn). now apply provided_other_entry.
Qed.

(** X19: whatever options of the package are given to [TextInput], and in
    whatever order, the argument map keeps the feedback id
    ["go-text-input-id"] and the text of the call.  Each of the seven
    options writes one entry of its own, and of the options given for one
    entry the last one is the one that counts, wherever it stands among
    the others. *)
Theorem TextInput_args_fixed (text : string) (opts : list TextInputOption) :
  Forall provided opts ->
  TextInput_args text opts !! "FeedbackId" = Some (VString "go-text-input-id") /\
  TextInput_args text opts !! "Text" = Some (VString text) /\
  (forall pre o post key v,
     opts = pre ++ o :: post ->
     writes o key v ->
     Forall (fun o' => forall v', ~ writes o' key v') post ->
     TextInput_args text opts !! key = Some v) /\
  (forall dur text' t,
     writes (WithDuration dur) "Duration" (VSeconds dur) /\
     writes (WithInputText text') "InputText" (VString text') /\
     writes (WithInputType t) "InputType" (VInputType t) /\
     writes WithInputKeyboardHidden "KeyboardState" (VString "Closed") /\
     writes (WithPlaceholderText text') "Placeholder" (VString text') /\
     writes (WithSubmitText text') "SubmitText" (VString text') /\
     writes (WithTitle text') "Title" (VString text')).
Proof.
  intros Hopts. unfold TextInput_args.
  rewrite !(fold_provided_keeps _ opts Hopts) by auto.
  split; [reflexivity |]. split; [reflexivity |]. split.
  - intros pre o post key v -> Hw Hpost.
    apply Forall_app in Hopts as [_ Hopts].
    apply Forall_cons in Hopts as [_ Hopts].
    rewrite fold_left_app. cbn [fold_left].
    rewrite (fold_other_entry key post Hopts Hpost).
    now apply writes_lookup.
  - intros dur text' t. repeat split.
Qed.

Lemma TextInput_args_fixed_witness :
  TextInput_args "PIN?"
    [WithTitle "Door"; WithInputType "PIN"; WithTitle "Gate"; WithDuration 5]
    !! "Title" = Some (VString "Gate").
Proof.
  refine (proj1 (proj2 (proj2 (TextInput_args_fixed "PIN?"
            [WithTitle "Door"; WithInputType "PIN"; WithTitle "Gate";
             WithDuration 5] _)))
            [WithTitle "Door"; WithInputType "PIN"] (WithTitle "Gate")
            [WithDuration 5] "Title" (VString "Gate") eq_refl _ _).
  - repeat constructor.
  - intros args. reflexivity.
  - constructor; [|constructor]. intros v' Hw.
    specialize (Hw ∅). apply (f_equal (fun m => m !! "Title")) in Hw.
    rewrite lookup_insert_eq in Hw. discriminate.
Defined.

(** ** Commands and the rest of the client *)

Lemma sendCommand_other_fields `{E : Extern} (c : Client) command params env :
  let c' := (sendCommand c command params env).1.1 in
  callbacks c' = callbacks c /\ client c' = client c /\
  User c' = User c /\ Password c' = Password c /\ URL c' = URL c /\
  OnConnectFunc c' = OnConnectFunc c.
Proof.
  unfold sendCommand. destruct (client c) eqn:Hc; [|repeat split; auto].
  destruct (jsonMarshal params); [cbn; repeat split; auto |].
  destruct (env_write env); cbn; repeat split; auto.
Qed.

(** X20: commands leave the subscriptions alone.  After any run of calls
    of [sendCommand], and after [Get], [Mute] or [UnMute], the registry,
    the connection, the credentials and the address of the client are what
    they were; [Get] writes at most the frame [xGet] with the segments of
    the path under ["Path"], and [Mute] and [UnMute] give back the error of
    their command and nothing else. *)
Theorem commands_keep_registry `{E : Extern} (c : Client)
    (calls : list (Command * Params * SendEnv)) (path : Path) (env : SendEnv) :
  (callbacks (afterCalls c calls) = callbacks c /\
   client (afterCalls c calls) = client c /\
   User (afterCalls c calls) = User c /\
   Password (afterCalls c calls) = Password c /\
   URL (afterCalls c calls) = URL c) /\
  callbacks (Get c path env).1.1 = callbacks c /\
  callbacks (Mute c env).1.1 = callbacks c /\
  callbacks (UnMute c env).1.1 = callbacks c /\
  (forall msg, WriteMessage msg ∈ (Get c path env).2 ->
     req_method msg = "xGet" /\
     jsonMarshal (ParamsMap {[ "Path" := Fields path ]})
       = inr (req_params msg)) /\
  (forall msg, WriteMessage msg ∈ (Mute c env).2 ->
     req_method msg = "xCommand/Audio/Microphones/Mute" /\
     jsonMarshal ParamsNil = inr (req_params msg)) /\
  (forall msg, WriteMessage msg ∈ (UnMute c env).2 ->
     req_method msg = "xCommand/Audio/Microphones/Unmute" /\
     jsonMarshal ParamsNil = inr (req_params msg)) /\
  ((Mute c env).1.2 = Ok tt <->
   exists r, (sendCommand c muteCommand ParamsNil env).1.2 = Ok r) /\
  (forall e, (Mute c env).1.2 = Err e <->
     (sendCommand c muteCommand ParamsNil env).1.2 = Err e).
Proof.
  split.
  { revert c. induction calls as [|[[command params] e] rest IH]; intros c;
      [repeat split |].
    rewrite afterCalls_cons.
    destruct (IH (sendCommand c command params e).1.1)
      as (-> & -> & -> & -> & ->).
    destruct (sendCommand_other_fields c command params e)
      as (-> & -> & -> & -> & -> & _).
    repeat split. }
  pose proof (sendCommand_callbacks c getCommand
                (ParamsMap (toGetParams path)) env) as Hg.
  pose proof (sendCommand_callbacks c muteCommand ParamsNil env) as Hm.
  pose proof (sendCommand_callbacks c unmuteCommand ParamsNil env) as Hu.
  pose proof (fun msg => sendCommand_frame c getCommand
                (ParamsMap (toGetParams path)) env msg) as Fg.
  pose proof (fun msg => sendCommand_frame c muteCommand ParamsNil env msg)
    as Fm.
  pose proof (fun msg => sendCommand_frame c unmuteCommand ParamsNil env msg)
    as Fu.
  unfold Get, Mute, UnMute.
  destruct (sendCommand c getCommand _ env) as [[cg rg] eg].
  destruct (sendCommand c muteCommand _ env) as [[cm rm] em].
  destruct (sendCommand c unmuteCommand _ env) as [[cu ru] eu].
  cbn in *.
  split; [exact Hg |]. split; [exact Hm |]. split; [exact Hu |].
  split; [intros msg H; now destruct (Fg msg H) as (_ & ? & ?) |].
  split; [intros msg H; now destruct (Fm msg H) as (_ & ? & ?) |].
  split; [intros msg H; now destruct (Fu msg H) as (_ & ? & ?) |].
  destruct rm as [v|e|p]; cbn; split;
    try (split; [eauto; discriminate | try discriminate; eauto]);
    try (intros e'; split; congruence).
  - intros [r H]. discriminate.
  - intros [r H]. discriminate.
Qed.
